(** * gohome: device command translation, stream tokenizer, streaming loop and recipes

    A shallow embedding of [device.go] (command building and parsing, the
    scanner split function, [stream], [startStreaming],
    [StartProducingEvents]) and of the recipe file ([SetEnabled],
    [StartConsumingEvents], [executeAction]), with the properties the
    specification states about them, and further properties of the same
    code and of [IsDupeDevice] of [system.go]. *)

From Stdlib Require Import ZArith NArith Ascii String List Lia Bool.
From Stdlib Require Import DecimalString SpecFloat.
From stdpp Require Import base option list gmap strings.

Local Open Scope N_scope.

(** stdpp seals [String.append] against [simpl]; the proofs below compute
    with it. *)
#[local] Arguments String.append !_ _ / : simpl nomatch.

(* ===================================================================== *)
(** * Go strings and runes *)
(* ===================================================================== *)

(** A Go [string] and a [[]byte] are both sequences of bytes: [string] here.
    [string(data)] and [[]byte(str)] copy the bytes and are left implicit. *)

Module Str.

Definition CR : ascii := ascii_of_nat 13.
Definition LF : ascii := ascii_of_nat 10.
Definition quote : ascii := ascii_of_nat 34.
Definition CRLF : string := String CR (String LF EmptyString).

Fixpoint drop (n : nat) (s : string) : string :=
  match n, s with
  | O, _ => s
  | S n', String _ s' => drop n' s'
  | S _, EmptyString => EmptyString
  end.

Fixpoint take (n : nat) (s : string) : string :=
  match n, s with
  | S n', String c s' => String c (take n' s')
  | _, _ => EmptyString
  end.

(** [s[i:j]] on a string, for [i <= j <= len(s)]. *)
Definition slice (i j : nat) (s : string) : string := take (j - i) (drop i s).

(** [strings.HasPrefix]. *)
Fixpoint HasPrefix (s p : string) : bool :=
  match p, s with
  | EmptyString, _ => true
  | String c p', String d s' => if ascii_dec c d then HasPrefix s' p' else false
  | String _ _, EmptyString => false
  end.

Fixpoint all (f : ascii -> bool) (s : string) : bool :=
  match s with
  | EmptyString => true
  | String c s' => f c && all f s'
  end.

Fixpoint concat (ss : list string) : string :=
  match ss with
  | [] => EmptyString
  | s :: ss' => s +:+ concat ss'
  end.

End Str.

Module Utf8.

(** A rune is a Unicode code point; [[]rune(str)] and the regexp engine read
    a string through the UTF-8 decoder of the run time, which yields
    [RuneError] of width one for every byte that starts no valid encoding. *)
Definition rune := N.
Definition RuneError : rune := 65533.
Definition MaxRune : rune := 1114111.

Definition byteN (b : ascii) : N := N_of_ascii b.
Definition in_range (lo hi x : N) : bool := (lo <=? x) && (x <=? hi).
Definition cont_byte (x : N) : bool := in_range 128 191 x.
Definition low (bits : N) (x : N) : N := N.land x (N.ones bits).

(** Range of the second byte, by leading byte (the decoder's accept ranges). *)
Definition second_ok (x0 x1 : N) : bool :=
  let lo := if x0 =? 224 then 160 else if x0 =? 240 then 144 else 128 in
  let hi := if x0 =? 237 then 159 else if x0 =? 244 then 143 else 191 in
  in_range lo hi x1.

(** Bytes of the encoding a leading byte announces; 0 for a byte that
    leads none (a continuation byte, 0xC0, 0xC1, 0xF5 and up). *)
Definition lead_size (x0 : N) : nat :=
  if in_range 194 223 x0 then 2
  else if in_range 224 239 x0 then 3
  else if in_range 240 244 x0 then 4
  else 0.

(** [utf8.DecodeRuneInString]: the first rune of [s] and its width. *)
Definition DecodeRune (s : string) : rune * nat :=
  match s with
  | EmptyString => (RuneError, 0%nat)
  | String b0 t0 =>
    let x0 := byteN b0 in
    if x0 <? 128 then (x0, 1%nat)
    else
      match lead_size x0, t0 with
      | 2%nat, String b1 _ =>
        let x1 := byteN b1 in
        if second_ok x0 x1
        then (N.lor (N.shiftl (low 5 x0) 6) (low 6 x1), 2%nat)
        else (RuneError, 1%nat)
      | 3%nat, String b1 (String b2 _) =>
        let x1 := byteN b1 in
        let x2 := byteN b2 in
        if second_ok x0 x1 && cont_byte x2
        then (N.lor (N.shiftl (low 4 x0) 12)
                (N.lor (N.shiftl (low 6 x1) 6) (low 6 x2)), 3%nat)
        else (RuneError, 1%nat)
      | 4%nat, String b1 (String b2 (String b3 _)) =>
        let x1 := byteN b1 in
        let x2 := byteN b2 in
        let x3 := byteN b3 in
        if second_ok x0 x1 && cont_byte x2 && cont_byte x3
        then (N.lor (N.shiftl (low 3 x0) 18)
                (N.lor (N.shiftl (low 6 x1) 12)
                   (N.lor (N.shiftl (low 6 x2) 6) (low 6 x3))), 4%nat)
        else (RuneError, 1%nat)
      | _, _ => (RuneError, 1%nat)
      end
  end.

(** The runes of a string from left to right, each with the number of bytes
    it was read from; [skip] counts the bytes still covered by the rune
    decoded last. *)
Fixpoint decode_from (skip : nat) (s : string) : list (rune * nat) :=
  match s with
  | EmptyString => []
  | String _ t =>
    match skip with
    | S k => decode_from k t
    | O => let rw := DecodeRune s in rw :: decode_from (snd rw - 1) t
    end
  end.

Definition decode (s : string) : list (rune * nat) := decode_from 0 s.

(** [[]rune(str)]. *)
Definition runes (s : string) : list rune := map fst (decode s).

Definition byte_of (x : N) : ascii := ascii_of_N x.

(** The UTF-8 encoding of one rune ([utf8.EncodeRune]); surrogates and
    values past [MaxRune] are written as [RuneError]. *)
Definition encode_rune (r : rune) : string :=
  if r <? 128 then String (byte_of r) EmptyString
  else if r <? 2048 then
    String (byte_of (N.lor 192 (N.shiftr r 6)))
      (String (byte_of (N.lor 128 (low 6 r))) EmptyString)
  else if (MaxRune <? r) || in_range 55296 57343 r then
    String (byte_of 239) (String (byte_of 191) (String (byte_of 189) EmptyString))
  else if r <? 65536 then
    String (byte_of (N.lor 224 (N.shiftr r 12)))
      (String (byte_of (N.lor 128 (low 6 (N.shiftr r 6))))
         (String (byte_of (N.lor 128 (low 6 r))) EmptyString))
  else
    String (byte_of (N.lor 240 (N.shiftr r 18)))
      (String (byte_of (N.lor 128 (low 6 (N.shiftr r 12))))
         (String (byte_of (N.lor 128 (low 6 (N.shiftr r 6))))
            (String (byte_of (N.lor 128 (low 6 r))) EmptyString))).

(** [string(rs)] for a rune slice. *)
Definition string_of_runes (rs : list rune) : string :=
  Str.concat (map encode_rune rs).

(** The capacity of the slice that a conversion [[]rune(str)] returns, by
    the number of its runes. The run time takes the slice from a temporary
    buffer or from a block of one of the allocator's size classes, so the
    capacity is at least the length, and it clears the room between the
    length and the capacity. Which capacity it is depends on the toolchain;
    the development is parametric in it. *)
Class RuneAlloc : Type := {
  rune_cap : nat -> nat;
  rune_cap_ge : forall n : nat, (n <= rune_cap n)%nat
}.

(** The slice expression [rs[i:j]] on the result of [[]rune(str)]. The run
    time checks the bounds against the capacity, not the length: an upper
    index past the length reads the cleared room as NUL runes, and one past
    the capacity stops the program with a slice-bounds panic ([None]). *)
Definition slice_runes `{RuneAlloc} (rs : list rune) (i j : nat) : option (list rune) :=
  let c := rune_cap (List.length rs) in
  if decide (i <= j <= c)%nat
  then Some (firstn (j - i) (skipn i (rs ++ repeat 0 (c - List.length rs))))
  else None.

Definition is_ascii (s : string) : bool := Str.all (fun b => byteN b <? 128) s.

(** The bytes of a text read as runes of width one: what [decode] gives on
    ASCII text. *)
Definition byte_runes (s : string) : list (rune * nat) :=
  map (fun b => (byteN b, 1%nat)) (list_ascii_of_string s).

End Utf8.

(* ===================================================================== *)
(** * The regular expressions of device.go *)
(* ===================================================================== *)

(** The three patterns of the file are sequences of single-rune atoms, some
    under a greedy [+], with capture groups around runs of atoms. The
    matcher is the backtracking one that defines the leftmost-first
    semantics of Go's [regexp]: the leftmost start that matches wins, and
    at that start a greedy [+] gives runes back only when the rest fails. *)

Module Regexp.
Import Utf8.

(** A character class: one rune, a bracket set, a negated set, or [.]
    (any rune but a line feed; a negated set does match a line feed). *)
Inductive cls :=
| Lit (c : ascii)
| OneOf (cs : string)
| NoneOf (cs : string)
| AnyNotNL.

Fixpoint rune_mem (r : rune) (cs : string) : bool :=
  match cs with
  | EmptyString => false
  | String c cs' => (r =? byteN c) || rune_mem r cs'
  end.

Definition cls_match (c : cls) (r : rune) : bool :=
  match c with
  | Lit a => r =? byteN a
  | OneOf cs => rune_mem r cs
  | NoneOf cs => negb (rune_mem r cs)
  | AnyNotNL => negb (r =? 10)
  end.

Inductive item :=
| One (c : cls)
| Many1 (c : cls)
| Open
| Close.

Definition regex := list item.

Fixpoint lits (s : string) : regex :=
  match s with
  | EmptyString => []
  | String c s' => One (Lit c) :: lits s'
  end.

(** A match from a fixed start: the byte offset where it ends and the byte
    offsets of the group brackets it passed, in pattern order. *)
Definition matched : Type := nat * list nat.

Definition mark (pos : nat) (m : option matched) : option matched :=
  match m with
  | Some (e, bs) => Some (e, pos :: bs)
  | None => None
  end.

(** Zero or more runes of [c], longest first, then the continuation [k]. *)
Fixpoint star (c : cls) (k : list (rune * nat) -> nat -> option matched)
    (s : list (rune * nat)) (pos : nat) : option matched :=
  match s with
  | (r, w) :: s' =>
    if cls_match c r then
      match star c k s' (pos + w)%nat with
      | Some m => Some m
      | None => k s pos
      end
    else k s pos
  | [] => k s pos
  end.

Fixpoint exec (p : regex) (s : list (rune * nat)) (pos : nat) : option matched :=
  match p with
  | [] => Some (pos, [])
  | One c :: p' =>
    match s with
    | (r, w) :: s' => if cls_match c r then exec p' s' (pos + w)%nat else None
    | [] => None
    end
  | Many1 c :: p' =>
    match s with
    | (r, w) :: s' =>
      if cls_match c r then star c (exec p') s' (pos + w)%nat else None
    | [] => None
    end
  | Open :: p' => mark pos (exec p' s pos)
  | Close :: p' => mark pos (exec p' s pos)
  end.

(** The leftmost match: [start; end; g1 start; g1 end; ...] in bytes. *)
Fixpoint find (p : regex) (s : list (rune * nat)) (pos : nat) : option (list nat) :=
  match exec p s pos with
  | Some (e, bs) => Some (pos :: e :: bs)
  | None =>
    match s with
    | [] => None
    | (_, w) :: s' => find p s' (pos + w)%nat
    end
  end.

Definition FindStringSubmatchIndex (p : regex) (str : string) : option (list nat) :=
  find p (decode str) 0.

(** [FindStringIndex]: the bounds of the leftmost match, [nil] without one. *)
Definition FindStringIndex (p : regex) (str : string) : option (nat * nat) :=
  match FindStringSubmatchIndex p str with
  | Some (i0 :: i1 :: _) => Some (i0, i1)
  | _ => None
  end.

Fixpoint pairs (str : string) (bs : list nat) : list string :=
  match bs with
  | i :: j :: bs' => Str.slice i j str :: pairs str bs'
  | _ => []
  end.

(** [FindStringSubmatch]: the text of the match and of each group. *)
Definition FindStringSubmatch (p : regex) (str : string) : option (list string) :=
  match FindStringSubmatchIndex p str with
  | Some bs => Some (pairs str bs)
  | None => None
  end.

(** ["[~|#][OUTPUT|DEVICE].+\r\n"], the pattern of the scanner's split
    function: both brackets are character sets. *)
Definition split_re : regex :=
  [ One (OneOf "~|#"); One (OneOf "OUTPUT|DEVICE"); Many1 AnyNotNL;
    One (Lit Str.CR); One (Lit Str.LF) ].

Definition fields : regex :=
  [ Open; Many1 (NoneOf ","); Close; One (Lit ",");
    Open; Many1 (NoneOf ","); Close; One (Lit ",");
    Open; Many1 AnyNotNL; Close; One (Lit Str.CR); One (Lit Str.LF) ].

(** ["[~|#]DEVICE,([^,]+),([^,]+),(.+)\r\n"]. *)
Definition device_re : regex :=
  One (OneOf "~|#") :: lits "DEVICE," ++ fields.

(** ["[~|?]OUTPUT,([^,]+),([^,]+),(.+)\r\n"]. *)
Definition zone_re : regex :=
  One (OneOf "~|?") :: lits "OUTPUT," ++ fields.

(** Bytes covered by a run of runes. *)
Definition width_sum (s : list (rune * nat)) : nat := list_sum (map snd s).

(** No rune is a line feed. *)
Definition lf_free (s : list (rune * nat)) : Prop :=
  Forall (fun rw => fst rw <> 10) s.

(** Every rune was read from one byte. *)
Definition unit_width (s : list (rune * nat)) : Prop :=
  Forall (fun rw => snd rw = 1%nat) s.

(** An ASCII byte that is none of the sentinels of [zone_re]. *)
Definition plain_byte (b : ascii) : bool :=
  (byteN b <? 128) && negb (rune_mem (byteN b) "~|?").

End Regexp.

(* ===================================================================== *)
(** * The data model of device.go *)
(* ===================================================================== *)

(** A call that may stop in a run-time panic (a nil pointer dereference). *)
Inductive run (A : Type) : Type :=
| Ok (a : A)
| Panic.
Arguments Ok {A} a.
Arguments Panic {A}.

#[global] Instance run_ret : MRet run := fun A a => Ok a.

#[global] Instance run_bind : MBind run := fun A B f m =>
  match m with
  | Ok a => f a
  | Panic => Panic
  end.

(** Reading a field through a pointer: a nil pointer panics. *)
Definition deref {A : Type} (p : option A) : run A :=
  match p with
  | Some a => Ok a
  | None => Panic
  end.

(** [strconv.ParseFloat(s, 64)] and the [%.2f] verb of [fmt.Sprintf] are the
    Go library's; the development is parametric in them. [ParseFloat] is
    [None] where the library returns a non-nil error, and [float64_zero] is
    the zero value of the type. *)
Class Strconv : Type := {
  float64 : Type;
  float64_zero : float64;
  ParseFloat : string -> option float64;
  Sprintf_2f : float64 -> string
}.

Module Zone.
(** Modelled from the spec: the declaration of [Zone] is not in the sources;
    a zone carries its local id, and device.go also reads [GlobalID] and
    [Name]. *)
Record t : Type := mk {
  LocalID : string;
  GlobalID : string;
  Name : string
}.
End Zone.

Module Button.
(** Modelled from the spec: the declaration of [Button] is not in the
    sources; a button carries its local id and display name, and device.go
    also reads [GlobalID]. *)
Record t : Type := mk {
  LocalID : string;
  GlobalID : string;
  Name : string
}.
End Button.

#[local] Unset Elimination Schemes.

Module Device.
(** The fields of [Device] that describe it; the maps hold pointers, and a
    key that is absent or bound to nil reads as nil ([None]). The channels
    and the pool of a device are part of the run-time state below. *)
Inductive t : Type := mk {
  LocalID : string;
  GlobalID : string;
  Name : string;
  Description : string;
  Buttons : gmap string Button.t;
  Devices : gmap string t;
  Zones : gmap string Zone.t
}.
End Device.

#[local] Set Elimination Schemes.

(** Modelled from the spec: the command types are declared outside the
    sources; these are the ones device.go names. *)
Inductive CommandType : Type :=
| CTUnknown
| CTZoneSetLevel
| CTDevicePressButton
| CTDeviceReleaseButton.

(** Modelled from the spec: [StringCommand] is declared outside the sources;
    its fields are those [buildCommand] fills. *)
Record StringCommand : Type := mkStringCommand {
  Device : option Device.t;
  Friendly : string;
  Value : string;
  Type_ : CommandType
}.

(** The second result of the parsers, an [interface{}]: nil, the zone, or
    the button pointer (itself possibly nil). *)
Inductive Source : Type :=
| SrcNil
| SrcZone (z : Zone.t)
| SrcButton (b : option Button.t).

Module commandBuilderParams.
Record t `{Strconv} : Type := mk {
  CommandType : CommandType;
  Zone : option Zone.t;
  Intensity : float64;
  Device : option Device.t;
  SourceDevice : option Device.t;
  Button : option Button.t
}.
End commandBuilderParams.

Section Translator.
Context `{SC : Strconv}.

Definition quoted (s : string) : string :=
  String Str.quote s +:+ String Str.quote EmptyString.

Definition buildCommand (p : commandBuilderParams.t) : run (option StringCommand) :=
  match commandBuilderParams.CommandType p with
  | CTZoneSetLevel =>
    z ← deref (commandBuilderParams.Zone p);
    mret (Some {|
      Device := commandBuilderParams.Device p;
      Friendly := "Zone [" +:+ Zone.GlobalID z +:+ "] " +:+ quoted (Zone.Name z)
                  +:+ " set to " +:+ Sprintf_2f (commandBuilderParams.Intensity p) +:+ "%";
      Value := "#OUTPUT," +:+ Zone.LocalID z +:+ ",1,"
               +:+ Sprintf_2f (commandBuilderParams.Intensity p) +:+ Str.CRLF;
      Type_ := commandBuilderParams.CommandType p |})
  | CTDevicePressButton =>
    sd ← deref (commandBuilderParams.SourceDevice p);
    b ← deref (commandBuilderParams.Button p);
    mret (Some {|
      Device := commandBuilderParams.Device p;
      Friendly := "Device [" +:+ Device.GlobalID sd +:+ "] " +:+ quoted (Device.Name sd)
                  +:+ " press button " +:+ Button.LocalID b
                  +:+ " [" +:+ Button.GlobalID b +:+ "]";
      Value := "#DEVICE," +:+ Device.Name sd +:+ "," +:+ Button.LocalID b
               +:+ ",3" +:+ Str.CRLF;
      Type_ := commandBuilderParams.CommandType p |})
  | CTDeviceReleaseButton =>
    sd ← deref (commandBuilderParams.SourceDevice p);
    b ← deref (commandBuilderParams.Button p);
    mret (Some {|
      Device := commandBuilderParams.Device p;
      Friendly := "Device [" +:+ Device.GlobalID sd +:+ "] " +:+ quoted (Device.Name sd)
                  +:+ " release button " +:+ Button.LocalID b
                  +:+ " [" +:+ Button.GlobalID b +:+ "]";
      Value := "#DEVICE," +:+ Device.Name sd +:+ "," +:+ Button.LocalID b
               +:+ ",4" +:+ Str.CRLF;
      Type_ := commandBuilderParams.CommandType p |})
  | CTUnknown => mret None
  end.

Definition parseDeviceCommand (d : Device.t) (cmd : string)
  : run (option StringCommand * Source) :=
  match Regexp.FindStringSubmatch Regexp.device_re cmd with
  | Some [_; deviceID; componentID; cmdID] =>
    match Device.Devices d !! deviceID with
    | None => mret (None, SrcNil)
    | Some sourceDevice =>
      let '(ct, btn) :=
        if String.eqb cmdID "3"
        then (CTDevicePressButton, Device.Buttons sourceDevice !! componentID)
        else if String.eqb cmdID "4"
        then (CTDeviceReleaseButton, Device.Buttons sourceDevice !! componentID)
        else (CTUnknown, None) in
      c ← buildCommand {|
        commandBuilderParams.CommandType := ct;
        commandBuilderParams.Zone := None;
        commandBuilderParams.Intensity := float64_zero;
        commandBuilderParams.Device := Some d;
        commandBuilderParams.SourceDevice := Some sourceDevice;
        commandBuilderParams.Button := btn |};
      mret (c, SrcButton btn)
    end
  | _ => mret (None, SrcNil)
  end.

Definition parseZoneCommand (d : Device.t) (cmd : string)
  : run (option StringCommand * Source) :=
  match Regexp.FindStringSubmatch Regexp.zone_re cmd with
  | Some [_; zoneID; cmdID; num] =>
    match ParseFloat num with
    | None => mret (None, SrcNil)
    | Some intensity =>
      match Device.Zones d !! zoneID with
      | None => mret (None, SrcNil)
      | Some z =>
        let ct := if String.eqb cmdID "1" then CTZoneSetLevel else CTUnknown in
        c ← buildCommand {|
          commandBuilderParams.CommandType := ct;
          commandBuilderParams.Zone := Some z;
          commandBuilderParams.Intensity := intensity;
          commandBuilderParams.Device := Some d;
          commandBuilderParams.SourceDevice := None;
          commandBuilderParams.Button := None |};
        mret (c, SrcZone z)
      end
    end
  | _ => mret (None, SrcNil)
  end.

Definition parseCommandString (d : Device.t) (cmd : string)
  : run (option StringCommand * Source) :=
  if Str.HasPrefix cmd "~OUTPUT" || Str.HasPrefix cmd "#OUTPUT"
  then parseZoneCommand d cmd
  else if Str.HasPrefix cmd "~DEVICE" || Str.HasPrefix cmd "#DEVICE"
  then parseDeviceCommand d cmd
  else mret (None, SrcNil).

End Translator.

(* ===================================================================== *)
(** * An IEEE binary64 instance of the numeric library *)
(* ===================================================================== *)

(** [float64] as the binary64 format of [SpecFloat], with [%.2f] and the
    decimal syntax of [ParseFloat] (sign, digits, fraction, exponent, and
    the words inf, infinity and nan). The hexadecimal mantissas and the
    digit-separating underscores that later toolchains also read are not
    part of this instance. Conversions round to nearest, ties to even, on
    the exact value, as the library does. *)

Module Float64.

Local Open Scope Z_scope.

Definition prec : Z := 53.
Definition emax : Z := 1024.

Definition dec (n : Z) : string := NilEmpty.string_of_uint (N.to_uint (Z.to_N n)).

Definition two_digits (n : Z) : string :=
  if n <? 10 then "0" +:+ dec n else dec n.

(** [x / y] for [y > 0], rounded to the nearest integer, ties to even. *)
Definition div_half_even (x y : Z) : Z :=
  let q := x / y in
  let r := x mod y in
  match 2 * r ?= y with
  | Lt => q
  | Gt => q + 1
  | Eq => if Z.even q then q else q + 1
  end.

(** The magnitude in hundredths, rounded. *)
Definition hundredths (m : positive) (e : Z) : Z :=
  if 0 <=? e then Zpos m * 2 ^ e * 100
  else div_half_even (Zpos m * 100) (2 ^ (- e)).

Definition fixed2 (h : Z) : string := dec (h / 100) +:+ "." +:+ two_digits (h mod 100).

Definition sign_text (s : bool) : string := if s then "-" else "".

(** [fmt.Sprintf("%.2f", x)]. *)
Definition format_2f (x : spec_float) : string :=
  match x with
  | S754_nan => "NaN"
  | S754_infinity false => "+Inf"
  | S754_infinity true => "-Inf"
  | S754_zero s => sign_text s +:+ "0.00"
  | S754_finite s m e => sign_text s +:+ fixed2 (hundredths m e)
  end.

Definition digit (c : ascii) : option Z :=
  let n := Z.of_N (N_of_ascii c) in
  if (48 <=? n) && (n <=? 57) then Some (n - 48) else None.

(** A run of decimal digits: its value after [acc], how many were read, and
    the rest of the text. *)
Fixpoint digits (acc : Z) (count : nat) (s : string) : Z * nat * string :=
  match s with
  | String c s' =>
    match digit c with
    | Some d => digits (acc * 10 + d) (S count) s'
    | None => (acc, count, s)
    end
  | EmptyString => (acc, count, s)
  end.

(** Exponent digits; the accumulated value stops growing at 10000. *)
Fixpoint exp_digits (acc : Z) (count : nat) (s : string) : Z * nat * string :=
  match s with
  | String c s' =>
    match digit c with
    | Some d => exp_digits (if acc <? 10000 then acc * 10 + d else acc) (S count) s'
    | None => (acc, count, s)
    end
  | EmptyString => (acc, count, s)
  end.

Definition lower (c : ascii) : ascii :=
  let n := N_of_ascii c in
  if ((65 <=? n) && (n <=? 90))%N then ascii_of_N (n + 32) else c.

Fixpoint lower_string (s : string) : string :=
  match s with
  | EmptyString => EmptyString
  | String c s' => String (lower c) (lower_string s')
  end.

Definition read_sign (s : string) : bool * string :=
  match s with
  | String "+" s' => (false, s')
  | String "-" s' => (true, s')
  | _ => (false, s)
  end.

(** The nearest binary64 to [n * 10 ^ k] for [n > 0]. For a negative [k]
    the quotient is taken with at least 64 bits and a sticky last bit. *)
Definition nearest (n k : Z) : spec_float :=
  if 0 <=? k then binary_normalize prec emax (n * 10 ^ k) 0 false
  else
    let d := 10 ^ (- k) in
    let s := Z.max 0 (64 + Z.log2 d - Z.log2 n) in
    let q := (n * 2 ^ s) / d in
    let sticky := if (n * 2 ^ s) mod d =? 0 then 0 else 1 in
    binary_normalize prec emax (2 * q + sticky) (- s - 1) false.

Definition with_sign (neg : bool) (x : spec_float) : spec_float :=
  if neg then SFopp x else x.

(** The number [neg, n * 10 ^ k]; a value out of range is an error. *)
Definition convert (neg : bool) (n k : Z) : option spec_float :=
  if n =? 0 then Some (S754_zero neg)
  else
    match nearest n k with
    | S754_infinity _ => None
    | x => Some (with_sign neg x)
    end.

Definition special (s : string) : option spec_float :=
  let t := lower_string s in
  if String.eqb t "nan" then Some S754_nan
  else
    let '(neg, u) := read_sign t in
    if String.eqb u "inf" || String.eqb u "infinity"
    then Some (S754_infinity neg) else None.

Definition parse_decimal (s : string) : option spec_float :=
  let '(neg, s1) := read_sign s in
  let '(ip, ni, s2) := digits 0 0 s1 in
  let '(n, nf, s3) :=
    match s2 with
    | String "." t => let '(v, c, r) := digits ip 0 t in (v, c, r)
    | _ => (ip, 0%nat, s2)
    end in
  if (ni + nf =? 0)%nat then None
  else
    match s3 with
    | EmptyString => convert neg n (- Z.of_nat nf)
    | String c t =>
      if ascii_dec (lower c) "e" then
        let '(eneg, t1) := read_sign t in
        let '(e, ne, t2) := exp_digits 0 0 t1 in
        match ne, t2 with
        | S _, EmptyString => convert neg n ((if eneg then - e else e) - Z.of_nat nf)
        | _, _ => None
        end
      else None
    end.

Definition parse (s : string) : option spec_float :=
  match special s with
  | Some x => Some x
  | None => parse_decimal s
  end.

#[global] Instance strconv : Strconv := {|
  float64 := spec_float;
  float64_zero := S754_zero false;
  ParseFloat := parse;
  Sprintf_2f := format_2f
|}.

End Float64.

(* ===================================================================== *)
(** * An allocation policy for the examples *)
(* ===================================================================== *)

Module TmpBuf.

(** [tmpStringBufSize] of the run time: a conversion whose result does not
    escape, as in the split function, is given a temporary buffer of this
    many runes. *)
Definition tmpStringBufSize : nat := 32.

(** Up to 32 runes the slice is the temporary buffer; a longer one comes
    from the allocator, whose size classes leave at least no room, which
    is what this instance takes. The examples stay within the buffer. *)
#[global] Instance rune_alloc : Utf8.RuneAlloc := {|
  Utf8.rune_cap := fun n => Nat.max tmpStringBufSize n;
  Utf8.rune_cap_ge := fun n => Nat.le_max_r tmpStringBufSize n
|}.

End TmpBuf.

(* ===================================================================== *)
(** * A small installation used by the examples *)
(* ===================================================================== *)

Module Example.

Definition zone12 : Zone.t :=
  {| Zone.LocalID := "12"; Zone.GlobalID := "z-0012"; Zone.Name := "Kitchen" |}.

Definition button3 : Button.t :=
  {| Button.LocalID := "3"; Button.GlobalID := "b-0003"; Button.Name := "Scene 3" |}.

(** A keypad with integration id 9 and one button, 3. *)
Definition keypad : Device.t :=
  {| Device.LocalID := "9"; Device.GlobalID := "d-0009"; Device.Name := "Keypad";
     Device.Description := "Hall keypad";
     Device.Buttons := {[ "3" := button3 ]};
     Device.Devices := ∅;
     Device.Zones := ∅ |}.

(** The hub that owns the keypad and zone 12. *)
Definition hub : Device.t :=
  {| Device.LocalID := "1"; Device.GlobalID := "d-0001"; Device.Name := "Hub";
     Device.Description := "Bridge";
     Device.Buttons := ∅;
     Device.Devices := {[ "9" := keypad ]};
     Device.Zones := {[ "12" := zone12 ]} |}.

End Example.

(* ===================================================================== *)
(** * Intents *)
(* ===================================================================== *)

Section Intents.
Context `{SC : Strconv}.

Definition SetZoneLevel (d : Device.t) (z : Zone.t) (intensity : float64)
  : commandBuilderParams.t :=
  {| commandBuilderParams.CommandType := CTZoneSetLevel;
     commandBuilderParams.Zone := Some z;
     commandBuilderParams.Intensity := intensity;
     commandBuilderParams.Device := Some d;
     commandBuilderParams.SourceDevice := None;
     commandBuilderParams.Button := None |}.

Definition PressButton (d sd : Device.t) (b : Button.t) : commandBuilderParams.t :=
  {| commandBuilderParams.CommandType := CTDevicePressButton;
     commandBuilderParams.Zone := None;
     commandBuilderParams.Intensity := float64_zero;
     commandBuilderParams.Device := Some d;
     commandBuilderParams.SourceDevice := Some sd;
     commandBuilderParams.Button := Some b |}.

Definition ReleaseButton (d sd : Device.t) (b : Button.t) : commandBuilderParams.t :=
  {| commandBuilderParams.CommandType := CTDeviceReleaseButton;
     commandBuilderParams.Zone := None;
     commandBuilderParams.Intensity := float64_zero;
     commandBuilderParams.Device := Some d;
     commandBuilderParams.SourceDevice := Some sd;
     commandBuilderParams.Button := Some b |}.

(** The wire text of a built command, [""] when none was built. *)
Definition wire (c : run (option StringCommand)) : string :=
  match c with
  | Ok (Some cmd) => Value cmd
  | _ => ""
  end.

End Intents.

(* ===================================================================== *)
(** * The scanner of [stream] *)
(* ===================================================================== *)

Module Scanner.
Import Utf8.

(** [bufio.MaxScanTokenSize]: the most the scanner buffers for one token. *)
Definition MaxScanTokenSize : N := 65536.

(** How a scan ends: [scanner.Err()] is nil at end of input, and non-nil
    after a failed read or when the buffer is full without a token;
    [SplitFault] is the split function slicing past the capacity of its
    rune slice. *)
Inductive ending : Type :=
| AtEOF
| ReadFailed
| TooLong
| SplitFault.

(** What a connection delivers: the chunks its reads return, then the
    error of the read that ends it ([io.EOF] when [failed] is false). An
    empty chunk is a read that returned no byte; the scanner gives up
    after a hundred of those in a row, which connections do not produce
    and the model leaves out. *)
Record input : Type := mkInput {
  chunks : list string;
  failed : bool
}.

Section Split.
Context `{RA : RuneAlloc}.

(** The split function handed to [bufio.Scanner]: [(advance, token)], the
    error result being nil on every path. [atEOF] is not read. The indices
    of the match are byte offsets, and the function uses them as indices
    of the rune slice. [None] stands for the slice-bounds panic. *)
Definition split (data : string) (atEOF : bool) : option (nat * option string) :=
  let str := data in
  match Regexp.FindStringIndex Regexp.split_re str with
  | Some (i0, i1) =>
    match slice_runes (runes str) i0 i1 with
    | Some rs => Some (i1, Some (string_of_runes rs))
    | None => None
    end
  | None => Some (0%nat, None)
  end.

(** Tokens the buffered bytes yield, one call of the split function per
    token, and the bytes left when a call asks for more data. *)
Fixpoint drain (fuel : nat) (buf : string) : list string * option string :=
  match fuel with
  | O => ([], Some buf)
  | S fuel' =>
    match split buf false with
    | None => ([], None)
    | Some (_, None) => ([], Some buf)
    | Some (adv, Some tok) =>
      let '(toks, rest) := drain fuel' (Str.drop adv buf) in
      (tok :: toks, rest)
    end
  end.

(** The tokens of successive [Scan] calls over the reads of a connection,
    starting from the bytes [buf] already buffered, and the way the scan
    ends. A read is issued only when the buffered bytes hold no token. *)
Fixpoint scan (buf : string) (reads : list string) (failed : bool)
  : list string * ending :=
  match drain (S (String.length buf)) buf with
  | (toks, None) => (toks, SplitFault)
  | (toks, Some rest) =>
    match reads with
    | [] => (toks, if failed then ReadFailed else AtEOF)
    | chunk :: reads' =>
      if MaxScanTokenSize <=? N.of_nat (String.length rest) then (toks, TooLong)
      else
        let '(toks', e) := scan (rest +:+ chunk) reads' failed in
        (toks ++ toks', e)
    end
  end.

Definition Scan (i : input) : list string * ending :=
  scan "" (chunks i) (failed i).

End Split.

(** A complete frame: text that the pattern of the split function matches
    from its first byte to its last, within the size the scanner
    buffers. *)
Definition complete_frame (F : string) : bool :=
  match Regexp.FindStringIndex Regexp.split_re F with
  | Some (i0, i1) => Nat.eqb i0 0 && Nat.eqb i1 (String.length F)
  | None => false
  end
  && (N.of_nat (String.length F) <=? MaxScanTokenSize).



End Scanner.

(* ===================================================================== *)
(** * The run-time state of a device: pool, channels, streaming *)
(* ===================================================================== *)

Module Runtime.

Definition Conn : Type := nat.
Definition ChanID : Type := nat.

(** Modelled from the spec: the event types are declared outside the
    sources; [stream] names [ETUnknown] only. *)
Inductive EventType : Type := ETUnknown.

(** Modelled from the spec: [Event] and [NewEvent] are declared outside
    the sources; an event records the source device, the parsed command,
    the raw frame, the classification tag and the resolved source (the
    time stamp is left out). *)
Record Event : Type := mkEvent {
  EvDevice : Device.t;
  EvCommand : StringCommand;
  EvOrig : string;
  EvType : EventType;
  EvSource : Source
}.

Definition NewEvent (d : Device.t) (cmd : StringCommand) (orig : string)
    (t : EventType) (source : Source) : Event :=
  mkEvent d cmd orig t source.

Inductive chanValue : Type :=
| VEvent (e : Event)
| VBool (b : bool).

(** A channel: whether it was closed, and the values sent on it so far. *)
Record chanState : Type := mkChan {
  closed : bool;
  sent : list chanValue
}.

Definition fresh_chan : chanState := mkChan false [].

(** A receive on the channel completes only if a value was sent on it or
    it was closed. *)
Definition recv_ready (c : chanState) : bool :=
  closed c || negb (Nat.eqb (List.length (sent c)) 0).

(** Modelled from the spec: the connection pool ([comm.ConnectionPool]) is
    outside the sources; [Get] hands out an idle connection or nil when
    there is none, [Release] takes one back. *)
Record Pool : Type := mkPool { idle : list Conn }.

Definition Pool_Get (p : Pool) : option Conn * Pool :=
  match idle p with
  | [] => (None, p)
  | c :: cs => (Some c, mkPool cs)
  end.

Definition Pool_Release (c : Conn) (p : Pool) : Pool := mkPool (idle p ++ [c]).

Definition NewConnectionPool (size : nat) : Pool := mkPool (seq 0 size).

(** What a run leaves behind, oldest first. *)
Inductive obs : Type :=
| ObsGet (c : option Conn)
| ObsRelease (c : Conn)
| ObsSend (ch : ChanID) (v : chanValue)
| ObsSleep (seconds : nat)
| ObsLogV
| ObsLogE.

Inductive error : Type :=
| ErrConnect
| ErrStream.

(** How a call ends. *)
Inductive outcome : Type :=
| Returned (err : option error)
| Panicked.

(** Where a goroutine running [startStreaming] stands. [LoopReturned] is
    the point after the [for] statement. *)
Inductive loc : Type :=
| AtStream
| AtLog
| AtSleep
| LoopReturned
| Crashed.

Record World : Type := mkWorld {
  chans : list chanState;
  pool : Pool;
  trace : list obs;
  evpDone : option ChanID;
  evpFire : option ChanID;
  Stream : bool;
  PoolSize : nat;
  streamers : list loc;
  removed : bool
}.

(** The state [NewDevice] leaves: no pool connections, nil channels. *)
Definition NewDevice (stream : bool) (poolSize : nat) : World :=
  mkWorld [] (mkPool []) [] None None stream poolSize [] false.

Definition set_chans (cs : list chanState) (w : World) : World :=
  mkWorld cs (pool w) (trace w) (evpDone w) (evpFire w) (Stream w)
    (PoolSize w) (streamers w) (removed w).

Definition set_pool (p : Pool) (w : World) : World :=
  mkWorld (chans w) p (trace w) (evpDone w) (evpFire w) (Stream w)
    (PoolSize w) (streamers w) (removed w).

Definition note (o : obs) (w : World) : World :=
  mkWorld (chans w) (pool w) (trace w ++ [o]) (evpDone w) (evpFire w)
    (Stream w) (PoolSize w) (streamers w) (removed w).

Definition set_evp (done fire : option ChanID) (w : World) : World :=
  mkWorld (chans w) (pool w) (trace w) done fire (Stream w) (PoolSize w)
    (streamers w) (removed w).

Definition set_streamers (ls : list loc) (w : World) : World :=
  mkWorld (chans w) (pool w) (trace w) (evpDone w) (evpFire w) (Stream w)
    (PoolSize w) ls (removed w).

Definition set_removed (b : bool) (w : World) : World :=
  mkWorld (chans w) (pool w) (trace w) (evpDone w) (evpFire w) (Stream w)
    (PoolSize w) (streamers w) b.

(** [make(chan T)]. *)
Definition make_chan (w : World) : ChanID * World :=
  (List.length (chans w), set_chans (chans w ++ [fresh_chan]) w).

(** [ch <- v], with a receiver at the other end: a send on a closed
    channel panics. *)
Definition chan_send (ch : ChanID) (v : chanValue) (w : World) : run unit * World :=
  match chans w !! ch with
  | Some c =>
    if closed c then (Panic, w)
    else (Ok tt, note (ObsSend ch v)
                   (set_chans (<[ch := mkChan false (sent c ++ [v])]> (chans w)) w))
  | None => (Ok tt, w)
  end.

(** [InitConnections]. *)
Definition InitConnections (w : World) : World :=
  note ObsLogV (set_pool (NewConnectionPool (PoolSize w)) (note ObsLogV w)).

(** [Connect]: the connection, or nil and an error. *)
Definition Connect (w : World) : option Conn * World :=
  let '(c, p) := Pool_Get (pool w) in
  (c, note (ObsGet c) (set_pool p w)).

(** [ReleaseConnection]. *)
Definition ReleaseConnection (c : Conn) (w : World) : World :=
  note (ObsRelease c) (set_pool (Pool_Release c (pool w)) w).

Section Streaming.
Context `{SC : Strconv} `{RA : Utf8.RuneAlloc}.
Variable d : Device.t.

(** The body of the scan loop for one token. *)
Definition onFrame (orig : string) (w : World) : run unit * World :=
  match evpFire w with
  | None => (Ok tt, w)
  | Some ch =>
    match parseCommandString d orig with
    | Panic => (Panic, w)
    | Ok (Some cmd, source) =>
      chan_send ch (VEvent (NewEvent d cmd orig ETUnknown source)) w
    | Ok (None, _) => (Ok tt, w)
    end
  end.

Fixpoint onFrames (toks : list string) (w : World) : run unit * World :=
  match toks with
  | [] => (Ok tt, w)
  | orig :: toks' =>
    match onFrame orig w with
    | (Ok _, w') => onFrames toks' w'
    | (Panic, w') => (Panic, w')
    end
  end.

(** [stream] after the deferred release is registered: the scan loop and
    the result computed from [scanner.Err()]. *)
Definition stream_body (conn : Conn) (i : Scanner.input) (w : World) : outcome * World :=
  let w0 := note ObsLogV w in
  let '(toks, e) := Scanner.Scan i in
  match onFrames toks w0 with
  | (Panic, w1) => (Panicked, w1)
  | (Ok _, w1) =>
    match e with
    | Scanner.SplitFault => (Panicked, w1)
    | Scanner.AtEOF => (Returned None, note ObsLogV w1)
    | Scanner.ReadFailed | Scanner.TooLong => (Returned (Some ErrStream), note ObsLogV w1)
    end
  end.

(** [stream]: the deferred call runs when the body returns or panics. *)
Definition stream (i : Scanner.input) (w : World) : outcome * World :=
  match Connect (note ObsLogV w) with
  | (None, w1) => (Returned (Some ErrConnect), w1)
  | (Some conn, w1) =>
    let '(out, w2) := stream_body conn i w1 in
    (out, ReleaseConnection conn w2)
  end.

(** One step of the loop of [startStreaming]: the call of [stream], the
    log of its error, or the sleep of ten seconds. The loop has no
    [break] and no [return]. *)
Definition loop_step (i : Scanner.input) (l : loc) (w : World) : loc * World :=
  match l with
  | AtStream =>
    match stream i w with
    | (Returned None, w') => (AtSleep, w')
    | (Returned (Some _), w') => (AtLog, w')
    | (Panicked, w') => (Crashed, w')
    end
  | AtLog => (AtSleep, note ObsLogE w)
  | AtSleep => (AtStream, note (ObsSleep 10) w)
  | LoopReturned => (LoopReturned, w)
  | Crashed => (Crashed, w)
  end.

(** [startStreaming] run for as many steps as there are inputs. *)
Fixpoint startStreaming (ins : list Scanner.input) (l : loc) (w : World) : loc * World :=
  match ins with
  | [] => (l, w)
  | i :: ins' => let '(l', w') := loop_step i l w in startStreaming ins' l' w'
  end.

(** A cycle of the run panics: after the steps [pre] the loop that started
    at [l] stands at the call of [stream], and that call panics on the
    input [i]. *)
Definition cycle_panics (ins : list Scanner.input) (l : loc) (w : World) : Prop :=
  exists (pre : list Scanner.input) (i : Scanner.input) (post : list Scanner.input)
         (w1 : World),
    ins = pre ++ i :: post
    /\ startStreaming pre l w = (AtStream, w1)
    /\ fst (stream i w1) = Panicked.

(** What the loop does after a call of [stream] that returned [e]: the
    log of the error, if any, and the sleep. *)
Definition after_return (e : option error) (w : World) : World :=
  note (ObsSleep 10) (match e with
                      | None => w
                      | Some _ => note ObsLogE w
                      end).

(** [StartProducingEvents]: the two channels it returns, fire then done. *)
Definition StartProducingEvents (w : World) : (ChanID * ChanID) * World :=
  let '(done, w1) := make_chan w in
  let '(fire, w2) := make_chan w1 in
  let w3 := set_evp (Some done) (Some fire) w2 in
  let w4 := if Stream w3 then set_streamers (streamers w3 ++ [AtStream]) w3 else w3 in
  ((fire, done), w4).

(** [Authenticate] reads the prompts of the connection and writes the
    credentials; it touches neither pool nor channels. *)
Definition Authenticate (c : Conn) (w : World) : World := w.

(** [System.DeleteDevice] takes the device out of the system's table. *)
Definition DeleteDevice (w : World) : World := set_removed true w.

(** The operations on a device, and a step of one of its streaming
    goroutines. *)
Inductive action : Type :=
| ActInitConnections
| ActConnect
| ActReleaseConnection (c : Conn)
| ActStartProducingEvents
| ActAuthenticate (c : Conn)
| ActStreamer (k : nat) (i : Scanner.input)
| ActDeleteDevice.

(** One action: the new state, and the done channel when the action
    returned one. *)
Definition perform (a : action) (w : World) : option ChanID * World :=
  match a with
  | ActInitConnections => (None, InitConnections w)
  | ActConnect => (None, snd (Connect w))
  | ActReleaseConnection c => (None, ReleaseConnection c w)
  | ActStartProducingEvents =>
    let '((_, done), w') := StartProducingEvents w in (Some done, w')
  | ActAuthenticate c => (None, Authenticate c w)
  | ActStreamer k i =>
    match streamers w !! k with
    | Some l =>
      let '(l', w') := loop_step i l w in
      (None, set_streamers (<[k := l']> (streamers w')) w')
    | None => (None, w)
    end
  | ActDeleteDevice => (None, DeleteDevice w)
  end.

(** A run: the done channels handed to callers, and the final state. *)
Fixpoint perform_all (acts : list action) (w : World) : list ChanID * World :=
  match acts with
  | [] => ([], w)
  | a :: acts' =>
    let '(r, w1) := perform a w in
    let '(rs, w2) := perform_all acts' w1 in
    (match r with Some ch => ch :: rs | None => rs end, w2)
  end.

End Streaming.

Definition count_release (c : Conn) (t : list obs) : nat :=
  List.length (List.filter (fun o => match o with ObsRelease c' => Nat.eqb c c' | _ => false end) t).

Definition count_get (t : list obs) : nat :=
  List.length (List.filter (fun o => match o with ObsGet (Some _) => true | _ => false end) t).

Definition count_attempts (t : list obs) : nat :=
  List.length (List.filter (fun o => match o with ObsGet _ => true | _ => false end) t).

Definition count_sleeps (t : list obs) : nat :=
  List.length (List.filter (fun o => match o with ObsSleep _ => true | _ => false end) t).

(** Every sleep in the trace is of ten seconds. *)
Definition fixed_delay (t : list obs) : bool :=
  forallb (fun o => match o with ObsSleep n => Nat.eqb n 10 | _ => true end) t.

(** An observation made inside the scan loop: a log line or a send. *)
Definition inner (o : obs) : bool :=
  match o with
  | ObsLogV | ObsSend _ _ => true
  | _ => false
  end.

(** What one call of [stream] adds to the trace when it obtained [conn]:
    the log line, the [Get], observations of the scan loop, and one
    [Release] of [conn] at the end. *)
Definition one_cycle (conn : Conn) (seg : list obs) : Prop :=
  exists mid, seg = [ObsLogV; ObsGet (Some conn)] ++ mid ++ [ObsRelease conn]
              /\ forallb inner mid = true.

(** From [w] to [w'] the pool is the same and the trace grew by
    observations of the scan loop only. *)
Definition inner_step (w w' : World) : Prop :=
  pool w' = pool w
  /\ exists seg, trace w' = trace w ++ seg /\ forallb inner seg = true.

(** Positions in the cycle of the loop, for counting: an attempt not yet
    followed by its sleep, and the steps left before the next attempt. *)
Definition pending (l : loc) : nat :=
  match l with
  | AtLog | AtSleep => 1
  | _ => 0
  end.

Definition slack (l : loc) : nat :=
  match l with
  | AtStream => 2
  | AtSleep => 1
  | _ => 0
  end.

(** The channels in [held] were never sent on and never closed. *)
Definition pristine (held : list ChanID) (w : World) : Prop :=
  Forall (fun ch => chans w !! ch = Some fresh_chan) held.

(** The event channel is none of the channels in [held]. *)
Definition fire_outside (held : list ChanID) (w : World) : Prop :=
  forall ch, evpFire w = Some ch -> ~ In ch held.

(** From [w] to [w'] the channel fields are the same and no channel but
    the event channel changed. *)
Definition only_fire (w w' : World) : Prop :=
  evpFire w' = evpFire w
  /\ forall ch, evpFire w <> Some ch -> chans w' !! ch = chans w !! ch.

(** The done channel an action handed out, if any. *)
Definition handed (r : option ChanID) : list ChanID :=
  match r with
  | Some ch => [ch]
  | None => []
  end.

End Runtime.

(* ===================================================================== *)
(** * Recipes: the two listeners of [StartConsumingEvents] *)
(* ===================================================================== *)

Module Recipe.
Import Runtime.

(** Modelled from the spec: the [Trigger] interface is declared outside
    the sources. [Init] returns a fire channel (or nil) and whether the
    trigger evaluates events; [ProcessEvent] is a predicate with state. *)
Record Trigger : Type := mkTrigger {
  TState : Type;
  initial : TState;
  fires : bool;
  triggerProcessesEvents : bool;
  ProcessEvent : TState -> Event -> bool * TState
}.

(** Where a listener goroutine stands: waiting for its next signal, inside
    [executeAction], or past its loop. *)
Inductive activity : Type :=
| Listening
| Executing
| Exited.

Record State (T : Trigger) : Type := mkState {
  enabled : bool;
  tstate : TState T;
  fireTask : option activity;
  eventTask : activity;
  doneClosed : bool;
  triggerDoneClosed : bool;
  fireStarted : nat;
  fireFinished : nat;
  eventStarted : nat;
  eventFinished : nat;
  failures : nat
}.
Arguments mkState {T}.
Arguments enabled {T}.
Arguments tstate {T}.
Arguments fireTask {T}.
Arguments eventTask {T}.
Arguments doneClosed {T}.
Arguments triggerDoneClosed {T}.
Arguments fireStarted {T}.
Arguments fireFinished {T}.
Arguments eventStarted {T}.
Arguments eventFinished {T}.
Arguments failures {T}.

(** What the scheduler and the environment choose: a call of [SetEnabled],
    a value received by one listener, the sink or [done] found closed, or
    the return of [Action.Execute] in one listener ([err]: with an error). *)
Inductive label : Type :=
| SetEnabled (b : bool)
| Fire (f : bool)
| DoneClosed
| Deliver (e : Event)
| SinkClosed
| FireActionReturns (err : bool)
| EventActionReturns (err : bool).

Section Listeners.
Variable T : Trigger.

(** [NewRecipe] followed by [StartConsumingEvents]: the fire listener is
    started only for a non-nil fire channel. *)
Definition StartConsumingEvents (enabled0 : bool) : State T :=
  mkState enabled0 (initial T)
    (if fires T then Some Listening else None) Listening
    false false 0 0 0 0 0.

Definition logged (err : bool) (n : nat) : nat := if err then S n else n.

Definition step (s : State T) (l : label) : option (State T) :=
  match l with
  | SetEnabled b =>
    Some (mkState b (tstate s) (fireTask s) (eventTask s) (doneClosed s)
            (triggerDoneClosed s) (fireStarted s) (fireFinished s)
            (eventStarted s) (eventFinished s) (failures s))
  | Fire f =>
    match fireTask s with
    | Some Listening =>
      if enabled s && f then
        Some (mkState (enabled s) (tstate s) (Some Executing) (eventTask s)
                (doneClosed s) (triggerDoneClosed s) (S (fireStarted s))
                (fireFinished s) (eventStarted s) (eventFinished s) (failures s))
      else Some s
    | _ => None
    end
  | DoneClosed =>
    match fireTask s with
    | Some Listening =>
      if doneClosed s then
        Some (mkState (enabled s) (tstate s) (Some Exited) (eventTask s)
                (doneClosed s) (triggerDoneClosed s) (fireStarted s)
                (fireFinished s) (eventStarted s) (eventFinished s) (failures s))
      else None
    | _ => None
    end
  | Deliver e =>
    match eventTask s with
    | Listening =>
      if negb (enabled s) || negb (triggerProcessesEvents T) then Some s
      else
        let '(fired, t') := ProcessEvent T (tstate s) e in
        if fired then
          Some (mkState (enabled s) t' (fireTask s) Executing (doneClosed s)
                  (triggerDoneClosed s) (fireStarted s) (fireFinished s)
                  (S (eventStarted s)) (eventFinished s) (failures s))
        else
          Some (mkState (enabled s) t' (fireTask s) Listening (doneClosed s)
                  (triggerDoneClosed s) (fireStarted s) (fireFinished s)
                  (eventStarted s) (eventFinished s) (failures s))
    | _ => None
    end
  | SinkClosed =>
    match eventTask s with
    | Listening =>
      Some (mkState (enabled s) (tstate s) (fireTask s) Exited true true
              (fireStarted s) (fireFinished s) (eventStarted s)
              (eventFinished s) (failures s))
    | _ => None
    end
  | FireActionReturns err =>
    match fireTask s with
    | Some Executing =>
      Some (mkState (enabled s) (tstate s) (Some Listening) (eventTask s)
              (doneClosed s) (triggerDoneClosed s) (fireStarted s)
              (S (fireFinished s)) (eventStarted s) (eventFinished s)
              (logged err (failures s)))
    | _ => None
    end
  | EventActionReturns err =>
    match eventTask s with
    | Executing =>
      Some (mkState (enabled s) (tstate s) (fireTask s) Listening
              (doneClosed s) (triggerDoneClosed s) (fireStarted s)
              (fireFinished s) (eventStarted s) (S (eventFinished s))
              (logged err (failures s)))
    | _ => None
    end
  end.

(** A schedule, label by label; [None] when a label is not possible where
    it stands. *)
Fixpoint steps (s : State T) (ls : list label) : option (State T) :=
  match ls with
  | [] => Some s
  | l :: ls' =>
    match step s l with
    | Some s' => steps s' ls'
    | None => None
    end
  end.

Definition running (t : activity) : nat :=
  match t with
  | Executing => 1
  | _ => 0
  end.

Definition fire_running (s : State T) : nat :=
  match fireTask s with
  | Some t => running t
  | None => 0
  end.

(** Executions of the recipe's action in progress. *)
Definition executing (s : State T) : nat := fire_running s + running (eventTask s).

(** A signal the listeners of [s] can receive where they stand. *)
Definition hears (s : State T) (l : label) : bool :=
  match l with
  | Fire _ => match fireTask s with Some Listening => true | _ => false end
  | Deliver _ => match eventTask s with Listening => true | _ => false end
  | _ => false
  end.

(** Any label but a call of [SetEnabled(true)]. *)
Definition stays_off (l : label) : bool :=
  match l with
  | SetEnabled true => false
  | _ => true
  end.

(** Each listener has finished every execution it started but the one it
    is in. *)
Definition sequential (s : State T) : Prop :=
  fireStarted s = (fireFinished s + fire_running s)%nat
  /\ eventStarted s = (eventFinished s + running (eventTask s))%nat.

(** The listeners, their channels, the trigger and the executions started
    are as in [s]. *)
Definition same_listeners (s s' : State T) : Prop :=
  fireTask s' = fireTask s /\ eventTask s' = eventTask s
  /\ doneClosed s' = doneClosed s /\ triggerDoneClosed s' = triggerDoneClosed s
  /\ tstate s' = tstate s
  /\ fireStarted s' = fireStarted s /\ eventStarted s' = eventStarted s.

(** [s] with the flag set to [b]. *)
Definition with_enabled (b : bool) (s : State T) : State T :=
  mkState b (tstate s) (fireTask s) (eventTask s) (doneClosed s)
    (triggerDoneClosed s) (fireStarted s) (fireFinished s)
    (eventStarted s) (eventFinished s) (failures s).

End Listeners.

Arguments step {T}.
Arguments steps {T}.
Arguments executing {T}.
Arguments fire_running {T}.
Arguments hears {T}.
Arguments sequential {T}.
Arguments same_listeners {T}.
Arguments with_enabled {T}.

(** A trigger that fires on every event and has a fire channel. *)
Definition always : Trigger := mkTrigger unit tt true true (fun t _ => (true, t)).

End Recipe.

(* ===================================================================== *)
(** * Run-time examples *)
(* ===================================================================== *)

Module Demo.
Import Runtime.

(** The hub after [InitConnections] (two connections) and
    [StartProducingEvents] on a device that does not stream by itself:
    channel 0 is [evpDone], channel 1 is [evpFire]. *)
Definition ready : World :=
  snd (StartProducingEvents (InitConnections (NewDevice false 2))).

(** 55.0 as a binary64. *)
Definition fifty_five : @float64 Float64.strconv :=
  S754_finite false 7740561859543040 (-47).

Definition zone_frame : string := "~OUTPUT,12,1,55.00" +:+ Str.CRLF.
Definition unknown_op_frame : string := "~OUTPUT,12,2,55.00" +:+ Str.CRLF.
Definition set_level_text : string := "#OUTPUT,12,1,55.00" +:+ Str.CRLF.
Definition press_frame : string := "~DEVICE,9,3,3" +:+ Str.CRLF.
Definition unknown_device_frame : string := "~DEVICE,8,3,3" +:+ Str.CRLF.
Definition unknown_button_frame : string := "~DEVICE,9,7,3" +:+ Str.CRLF.

(** A zone frame whose id is the two-byte rune U+00E9: 16 bytes, 15 runes. *)
Definition accent_frame : string :=
  "~OUTPUT," +:+ String (ascii_of_nat 195) (String (ascii_of_nat 169) EmptyString)
  +:+ ",1,5" +:+ Str.CRLF.

(** The zone frame in one read, and cut into five reads. *)
Definition whole : Scanner.input := Scanner.mkInput [zone_frame] false.

(** A connection whose first read fails. *)
Definition dead : Scanner.input := Scanner.mkInput [] true.

(** The hub with its pool, set to stream, after [System.DeleteDevice]. *)
Definition gone : World := DeleteDevice (InitConnections (NewDevice true 2)).

(** A press of button 3 of the keypad, as an event. *)
Definition press_event : Event :=
  NewEvent Example.hub
    {| Device := Some Example.hub;
       Friendly := "press";
       Value := press_frame;
       Type_ := CTDevicePressButton |}
    press_frame ETUnknown (SrcButton (Some Example.button3)).

End Demo.

(* ===================================================================== *)
(** * Frames by their fields *)
(* ===================================================================== *)

(* ===================================================================== *)
(** * Frames built from their fields *)
(* ===================================================================== *)

Module Wire.
Import Utf8.

Definition nonempty (s : string) : bool :=
  match s with
  | EmptyString => false
  | String _ _ => true
  end.

(** An ASCII byte other than the comma, and other than the line feed. *)
Definition field_byte (b : ascii) : bool :=
  (byteN b <? 128) && negb (byteN b =? 44).

Definition tail_byte (b : ascii) : bool :=
  (byteN b <? 128) && negb (byteN b =? 10).

(** A first or second field: not empty, ASCII, no comma. *)
Definition is_field (s : string) : bool := nonempty s && Str.all field_byte s.

(** A last field: not empty, ASCII, no line feed. *)
Definition is_tail (s : string) : bool := nonempty s && Str.all tail_byte s.

(** [SENTINEL KEYWORD,f1,f2,f3\r\n]. *)
Definition frame (sentinel : ascii) (keyword f1 f2 f3 : string) : string :=
  String sentinel
    (keyword +:+ "," +:+ f1 +:+ "," +:+ f2 +:+ "," +:+ f3 +:+ Str.CRLF).

End Wire.

(* ===================================================================== *)
(** * What the scan loop delivers, and how a recipe winds down *)
(* ===================================================================== *)

Module Delivery.
Import Runtime.

Section Events.
Context `{SC : Strconv}.
Variable d : Device.t.

(** The events the scan loop has to send for the tokens [toks], in token
    order, and whether it stops in a panic: the tokens up to the first one
    on which the parser panics, without those the parser drops. *)
Fixpoint events_of (toks : list string) : list Event * bool :=
  match toks with
  | [] => ([], false)
  | orig :: toks' =>
    match parseCommandString d orig with
    | Panic => ([], true)
    | Ok (Some cmd, source) =>
      let '(es, p) := events_of toks' in
      (NewEvent d cmd orig ETUnknown source :: es, p)
    | Ok (None, _) => events_of toks'
    end
  end.

End Events.

(** A channel that is open, with [vs] sent on it after what [c] held. *)
Definition extended (c : chanState) (vs : list chanValue) : chanState :=
  mkChan false (sent c ++ vs).

End Delivery.

Module Quiet.
Import Recipe.

(** The same schedule with every execution of the action returning
    without an error. *)
Definition quiet (l : label) : label :=
  match l with
  | FireActionReturns _ => FireActionReturns false
  | EventActionReturns _ => EventActionReturns false
  | _ => l
  end.

(** Two states of a recipe that differ at most in the number of errors
    logged. *)
Definition same_but_log {T : Trigger} (s s' : State T) : Prop :=
  enabled s' = enabled s /\ tstate s' = tstate s
  /\ fireTask s' = fireTask s /\ eventTask s' = eventTask s
  /\ doneClosed s' = doneClosed s /\ triggerDoneClosed s' = triggerDoneClosed s
  /\ fireStarted s' = fireStarted s /\ fireFinished s' = fireFinished s
  /\ eventStarted s' = eventStarted s /\ eventFinished s' = eventFinished s.

(** A label that starts no execution and delivers nothing: the return of
    an action, the closing of the sink, the closed [done] channel. *)
Definition winds_down (l : label) : bool :=
  match l with
  | FireActionReturns _ | EventActionReturns _ | SinkClosed | DoneClosed => true
  | _ => false
  end.

(** The channels and the listeners of a recipe agree: [done] and
    [triggerDone] are closed together, exactly when the event listener has
    left its loop; the fire listener leaves only after that; and there is
    a fire listener exactly when the trigger has a fire channel. *)
Definition in_order {T : Trigger} (s : State T) : Prop :=
  triggerDoneClosed s = doneClosed s
  /\ (doneClosed s = true <-> eventTask s = Exited)
  /\ (fireTask s = Some Exited -> eventTask s = Exited)
  /\ (fireTask s = None <-> fires T = false).

(** The labels that let a recipe wind down from where its listeners
    stand: the action returns where one runs, the sink is closed, and the
    fire listener finds [done] closed. *)
Definition wind_down {T : Trigger} (s : State T) : list label :=
  match eventTask s with
  | Listening => [SinkClosed]
  | Executing => [EventActionReturns false; SinkClosed]
  | Exited => []
  end
  ++ match fireTask s with
     | Some Listening => [DoneClosed]
     | Some Executing => [FireActionReturns false; DoneClosed]
     | _ => []
     end.

(** What the two results of [Trigger.Init] allow in a state. *)
Definition by_mode {T : Trigger} (s : State T) : Prop :=
  (triggerProcessesEvents T = false ->
   eventStarted s = 0%nat /\ tstate s = initial T /\ eventTask s <> Executing)
  /\ (fires T = false -> fireStarted s = 0%nat /\ fireTask s = None).

(** A trigger with a fire channel that does not process events, and one
    that processes events and has no fire channel. *)
Definition timer_only : Trigger := mkTrigger unit tt true false (fun t _ => (true, t)).
Definition events_only : Trigger := mkTrigger unit tt false true (fun t _ => (true, t)).

End Quiet.

(* ===================================================================== *)
(** * The device table of system.go *)
(* ===================================================================== *)

Module System.

(** Modelled from the spec: the [Device] that system.go reads is a later
    declaration than the one of device.go and is not in the sources. Of it
    [IsDupeDevice] reads the network address and the optional parent hub,
    of which it compares the [ID]; the hub is held here by that id. *)
Record Device : Type := mkDevice {
  ID : string;
  Address : string;
  Hub : option string
}.

(** The verdict on a device [y] of the table that has the address of
    [x]: the two lines after the address test of [IsDupeDevice]. *)
Definition verdict (x y : Device) : option Device * bool :=
  match Hub x, Hub y with
  | None, None => (Some y, true)
  | Some hx, Some hy => (Some y, String.eqb hx hy)
  | _, _ => (None, false)
  end.

(** [IsDupeDevice], over the devices of the table in the order in which
    the [range] statement visits them; the language leaves that order
    open, so it is an argument. The first device with the address of [x]
    decides. *)
Fixpoint IsDupeDevice (ys : list Device) (x : Device) : option Device * bool :=
  match ys with
  | [] => (None, false)
  | y :: ys' =>
    if String.eqb (Address x) (Address y) then verdict x y
    else IsDupeDevice ys' x
  end.

End System.

(* ===================================================================== *)
(** * Facts about strings, runes and the matcher *)
(* ===================================================================== *)

Section StringFacts.


Lemma append_assoc (a b c : string) : (a +:+ b) +:+ c = a +:+ (b +:+ c).
Proof. induction a as [|x a IH]; simpl; [reflexivity | now rewrite IH]. Qed.

Lemma length_append (a b : string) :
  String.length (a +:+ b) = (String.length a + String.length b)%nat.
Proof. induction a as [|x a IH]; simpl; [reflexivity | now rewrite IH]. Qed.

Lemma all_append (f : ascii -> bool) (a b : string) :
  Str.all f (a +:+ b) = Str.all f a && Str.all f b.
Proof.
  induction a as [|x a IH]; simpl; [reflexivity |].
  rewrite IH. now rewrite andb_assoc.
Qed.

Lemma take_length (s : string) : Str.take (String.length s) s = s.
Proof. induction s as [|c s IH]; simpl; [reflexivity | now rewrite IH]. Qed.

Lemma take_append (a b : string) : Str.take (String.length a) (a +:+ b) = a.
Proof. induction a as [|x a IH]; simpl; [now destruct b | now rewrite IH]. Qed.

Lemma drop_append (a b : string) : Str.drop (String.length a) (a +:+ b) = b.
Proof. induction a as [|x a IH]; simpl; [reflexivity | exact IH]. Qed.

Lemma concat_app (xs ys : list string) :
  Str.concat (xs ++ ys) = Str.concat xs +:+ Str.concat ys.
Proof.
  induction xs as [|x xs IH]; simpl; [reflexivity |].
  now rewrite IH, append_assoc.
Qed.

End StringFacts.

Section RuneFacts.
Import Utf8.

Lemma decode_ascii (s : string) :
  is_ascii s = true -> decode s = byte_runes s.
Proof.
  unfold decode, byte_runes, is_ascii.
  induction s as [|b s IH]; simpl; [reflexivity |].
  intros H. apply andb_prop in H as [Hb Hs].
  rewrite Hb. simpl. now rewrite IH.
Qed.

Lemma byteN_lt_256 (b : ascii) : byteN b < 256.
Proof. unfold byteN. apply N_ascii_bounded. Qed.





End RuneFacts.

Section MatcherFacts.
Import Utf8 Regexp.

(** A pattern that starts with a single-rune class matches nowhere in a
    text none of whose runes is in the class. *)
Lemma find_first_class_absent (c : cls) (p : regex) (s : list (rune * nat)) :
  Forall (fun rw => cls_match c (fst rw) = false) s ->
  forall pos, find (One c :: p) s pos = None.
Proof.
  induction 1 as [|[r w] s Hr Hs IH]; intros pos; simpl; [reflexivity |].
  simpl in Hr. rewrite Hr. apply IH.
Qed.

Lemma plain_is_ascii (s : string) : Str.all plain_byte s = true -> is_ascii s = true.
Proof.
  unfold is_ascii. induction s as [|b s IH]; simpl; [reflexivity |].
  intros H. apply andb_prop in H as [Hb Hs].
  unfold plain_byte in Hb. apply andb_prop in Hb as [Hb _].
  now rewrite Hb, IH.
Qed.

Lemma plain_runes (s : string) :
  Str.all Regexp.plain_byte s = true ->
  Forall (fun rw => cls_match (OneOf "~|?") (fst rw) = false) (decode s).
Proof.
  intros H. rewrite (decode_ascii s (plain_is_ascii s H)). unfold byte_runes.
  induction s as [|b s IH]; simpl in *; [constructor |].
  apply andb_prop in H as [Hb Hs]. constructor; [| now apply IH].
  unfold plain_byte in Hb. apply andb_prop in Hb as [_ Hb].
  simpl. now apply negb_true_iff in Hb.
Qed.

Lemma zone_re_no_match (s : string) :
  Str.all Regexp.plain_byte s = true -> FindStringSubmatch zone_re s = None.
Proof.
  intros H. unfold FindStringSubmatch, FindStringSubmatchIndex, zone_re.
  now rewrite (find_first_class_absent _ _ _ (plain_runes s H)).
Qed.

End MatcherFacts.

(* ===================================================================== *)
(** * Command translation: what the parsers and the builder do *)
(* ===================================================================== *)

Section TranslatorFacts.
Context `{SC : Strconv}.

Lemma buildCommand_unknown (p : commandBuilderParams.t) :
  commandBuilderParams.CommandType p = CTUnknown -> buildCommand p = Ok None.
Proof. intros H. unfold buildCommand. now rewrite H. Qed.

(** The wire text of a set-level command. *)
Lemma set_level_wire (d : Device.t) (z : Zone.t) (x : float64) :
  wire (buildCommand (SetZoneLevel d z x))
  = "#OUTPUT," +:+ Zone.LocalID z +:+ ",1," +:+ Sprintf_2f x +:+ Str.CRLF.
Proof. reflexivity. Qed.

(** A frame the zone pattern does not match is dropped by the zone
    parser. *)
Lemma parseZoneCommand_no_match (d : Device.t) (cmd : string) :
  Regexp.FindStringSubmatch Regexp.zone_re cmd = None ->
  parseZoneCommand d cmd = Ok (None, SrcNil).
Proof. intros H. unfold parseZoneCommand. now rewrite H. Qed.

(** C1, on the code. The text [buildCommand] renders for
    [SetZoneLevel(zone, intensity)] starts with [#OUTPUT], which
    [parseCommandString] hands to [parseZoneCommand]; the pattern there
    accepts the sentinels [~], [|] and [?] but not [#], so the text does not
    parse back: for every zone whose local id, and every intensity whose
    two-decimal text, is ASCII without those three characters, the parser
    returns no command and no zone. *)
Theorem C1_rendered_set_level_is_not_parsed_back
    (d : Device.t) (z : Zone.t) (x : float64) :
  Str.all Regexp.plain_byte (Zone.LocalID z) = true ->
  Str.all Regexp.plain_byte (Sprintf_2f x) = true ->
  parseCommandString d (wire (buildCommand (SetZoneLevel d z x))) = Ok (None, SrcNil).
Proof.
  intros Hz Hx. rewrite set_level_wire.
  unfold parseCommandString. simpl Str.HasPrefix. simpl orb.
  apply parseZoneCommand_no_match, zone_re_no_match.
  rewrite !all_append, Hz, Hx. reflexivity.
Qed.

(** A device frame whose sub-device id is not in the child table is
    dropped: no command, no panic. *)
Lemma parseDeviceCommand_unknown_device
    (d : Device.t) (cmd whole deviceID componentID cmdID : string) :
  Regexp.FindStringSubmatch Regexp.device_re cmd
    = Some [whole; deviceID; componentID; cmdID] ->
  Device.Devices d !! deviceID = None ->
  parseDeviceCommand d cmd = Ok (None, SrcNil).
Proof. intros Hm Hd. unfold parseDeviceCommand. now rewrite Hm, Hd. Qed.

(** A device frame with an action code other than 3 and 4 builds no
    command, whatever its button id. *)
Lemma parseDeviceCommand_unknown_action
    (d sd : Device.t) (cmd whole deviceID componentID cmdID : string) :
  Regexp.FindStringSubmatch Regexp.device_re cmd
    = Some [whole; deviceID; componentID; cmdID] ->
  Device.Devices d !! deviceID = Some sd ->
  cmdID <> "3" -> cmdID <> "4" ->
  parseDeviceCommand d cmd = Ok (None, SrcButton None).
Proof.
  intros Hm Hd H3 H4. unfold parseDeviceCommand. rewrite Hm, Hd.
  apply String.eqb_neq in H3, H4. now rewrite H3, H4.
Qed.

(** C4, on the code. A press or release frame whose sub-device resolves
    and whose button id is not in that sub-device's button table makes
    [parseDeviceCommand] pass a nil button to [buildCommand], which reads
    its [LocalID]: the call panics instead of dropping the frame. *)
Theorem C4_unresolved_button_panics
    (d sd : Device.t) (cmd whole deviceID componentID cmdID : string) :
  Regexp.FindStringSubmatch Regexp.device_re cmd
    = Some [whole; deviceID; componentID; cmdID] ->
  Device.Devices d !! deviceID = Some sd ->
  Device.Buttons sd !! componentID = None ->
  cmdID = "3" \/ cmdID = "4" ->
  parseDeviceCommand d cmd = Panic.
Proof.
  intros Hm Hd Hb Hc. unfold parseDeviceCommand. rewrite Hm, Hd.
  destruct Hc as [-> | ->]; simpl; now rewrite Hb.
Qed.

(** The wire text of press and release commands, for every sub-device and
    button: the second field is the sub-device's [Name]. *)
Lemma press_release_wire (d sd : Device.t) (b : Button.t) :
  wire (buildCommand (PressButton d sd b))
    = "#DEVICE," +:+ Device.Name sd +:+ "," +:+ Button.LocalID b +:+ ",3" +:+ Str.CRLF
  /\ wire (buildCommand (ReleaseButton d sd b))
    = "#DEVICE," +:+ Device.Name sd +:+ "," +:+ Button.LocalID b +:+ ",4" +:+ Str.CRLF.
Proof. split; reflexivity. Qed.

(** C6, as the code has it. An inbound zone frame that matches the zone
    pattern, whose intensity parses and whose zone id resolves, but whose
    opCode is not ["1"], gets the command type [CTUnknown], for which
    [buildCommand] builds nothing: the parser returns a nil command with
    the resolved zone, without a panic, and the scan loop sends no event
    for the frame and changes nothing. *)
Theorem C6_unknown_op_builds_no_command
    (d : Device.t) (cmd whole zoneID cmdID num : string) (x : float64)
    (z : Zone.t) (w : Runtime.World) :
  Str.HasPrefix cmd "~OUTPUT" || Str.HasPrefix cmd "#OUTPUT" = true ->
  Regexp.FindStringSubmatch Regexp.zone_re cmd = Some [whole; zoneID; cmdID; num] ->
  ParseFloat num = Some x ->
  Device.Zones d !! zoneID = Some z ->
  cmdID <> "1" ->
  parseCommandString d cmd = Ok (None, SrcZone z)
  /\ Runtime.onFrame d cmd w = (Ok tt, w).
Proof.
  intros Hp Hm Hx Hz Hc.
  assert (E : parseCommandString d cmd = Ok (None, SrcZone z)).
  { unfold parseCommandString. rewrite Hp. unfold parseZoneCommand.
    rewrite Hm, Hx, Hz. apply String.eqb_neq in Hc. now rewrite Hc. }
  split; [exact E |].
  unfold Runtime.onFrame. rewrite E. now destruct (Runtime.evpFire w).
Qed.

End TranslatorFacts.

Section Float64Facts.
Import Regexp Float64.

Lemma string_of_uint_plain (u : Decimal.uint) :
  Str.all plain_byte (NilEmpty.string_of_uint u) = true.
Proof. induction u as [|u IH|u IH|u IH|u IH|u IH|u IH|u IH|u IH|u IH|u IH]; simpl;
         [reflexivity | rewrite IH; reflexivity ..]. Qed.

Lemma dec_plain (n : Z) : Str.all plain_byte (dec n) = true.
Proof. apply string_of_uint_plain. Qed.

Lemma fixed2_plain (h : Z) : Str.all plain_byte (fixed2 h) = true.
Proof.
  unfold fixed2, two_digits. rewrite !all_append, dec_plain.
  destruct (h mod 100 <? 10)%Z; [rewrite all_append |]; now rewrite dec_plain.
Qed.

(** The two-decimal text of a binary64 holds digits, a point, a sign or
    the letters of NaN and Inf: none of the sentinels of the zone
    pattern. *)
Lemma format_2f_plain (x : spec_float) : Str.all plain_byte (format_2f x) = true.
Proof.
  destruct x as [s|s| |s m e]; simpl.
  - now destruct s.
  - now destruct s.
  - reflexivity.
  - rewrite all_append, fixed2_plain. now destruct s.
Qed.

(** With binary64 intensities the rendered set-level text is dropped for
    every intensity, in [0, 100] or not. *)
Corollary set_level_text_dropped_binary64
    (d : Device.t) (z : Zone.t) (x : @float64 Float64.strconv) :
  Str.all plain_byte (Zone.LocalID z) = true ->
  parseCommandString d (wire (buildCommand (SetZoneLevel d z x))) = Ok (None, SrcNil).
Proof.
  intros Hz. rewrite set_level_wire.
  unfold parseCommandString. simpl Str.HasPrefix. simpl orb.
  apply parseZoneCommand_no_match, zone_re_no_match.
  rewrite !all_append, Hz. cbn [Sprintf_2f strconv].
  now rewrite format_2f_plain.
Qed.

End Float64Facts.

Section TranslatorExamples.
Import Example Demo.

(** Zone 12 at 55.0 renders as [#OUTPUT,12,1,55.00] and is registered on
    the hub, yet the text parses to nothing. *)
Lemma C1_zone12_at_55 :
  Str.all Regexp.plain_byte (Zone.LocalID zone12) = true
  /\ Str.all Regexp.plain_byte (Sprintf_2f fifty_five) = true
  /\ Device.Zones hub !! "12" = Some zone12
  /\ wire (buildCommand (SetZoneLevel hub zone12 fifty_five)) = set_level_text
  /\ parseCommandString hub (wire (buildCommand (SetZoneLevel hub zone12 fifty_five)))
     = Ok (None, SrcNil).
Proof.
  split; [vm_compute; reflexivity |].
  split; [vm_compute; reflexivity |].
  split; [vm_compute; reflexivity |].
  split; [vm_compute; reflexivity |].
  apply (C1_rendered_set_level_is_not_parsed_back hub zone12 fifty_five);
    vm_compute; reflexivity.
Defined.

(** The same text with the sentinel [~] does parse, to zone 12 and a
    command that renders as the [#] text again. *)
Example tilde_zone_frame_parses :
  match parseCommandString hub zone_frame with
  | Ok (Some c, SrcZone z) =>
    z = zone12 /\ Type_ c = CTZoneSetLevel /\ Value c = set_level_text
  | _ => False
  end.
Proof. vm_compute. repeat split. Qed.

(** The keypad has no button 7: a press frame for it panics. *)
Lemma C4_press_of_unknown_button :
  Regexp.FindStringSubmatch Regexp.device_re unknown_button_frame
    = Some [unknown_button_frame; "9"; "7"; "3"]
  /\ Device.Devices hub !! "9" = Some keypad
  /\ Device.Buttons keypad !! "7" = None
  /\ parseDeviceCommand hub unknown_button_frame = Panic
  /\ parseCommandString hub unknown_button_frame = Panic.
Proof.
  split; [vm_compute; reflexivity |].
  split; [vm_compute; reflexivity |].
  split; [vm_compute; reflexivity |].
  split.
  - apply (C4_unresolved_button_panics hub keypad unknown_button_frame
             unknown_button_frame "9" "7" "3");
      [vm_compute; reflexivity .. | now left].
  - vm_compute. reflexivity.
Defined.

(** Button 3 of the keypad: action code 3 is a press, 4 a release. *)
Example press_and_release_frames_parse :
  match parseCommandString hub press_frame,
        parseCommandString hub ("~DEVICE,9,3,4" +:+ Str.CRLF) with
  | Ok (Some p, SrcButton (Some b)), Ok (Some r, SrcButton (Some b')) =>
    Type_ p = CTDevicePressButton /\ Type_ r = CTDeviceReleaseButton
    /\ b = button3 /\ b' = button3
  | _, _ => False
  end.
Proof. vm_compute. repeat split. Qed.

(** An unknown sub-device id is dropped. *)
Example unknown_device_is_dropped :
  parseCommandString hub unknown_device_frame = Ok (None, SrcNil).
Proof. vm_compute. reflexivity. Qed.

(** C5, on the code. For the keypad (local id 9, name Keypad) and its
    button 3, [buildCommand] renders the press and release intents with
    the device's name in the sub-device field, not its local id: the text
    is not the [#DEVICE,9,3,3] and [#DEVICE,9,3,4] of the grammar. *)
Theorem C5_press_release_render_device_name :
  Device.LocalID keypad = "9"
  /\ Button.LocalID button3 = "3"
  /\ wire (buildCommand (PressButton hub keypad button3))
     = "#DEVICE,Keypad,3,3" +:+ Str.CRLF
  /\ wire (buildCommand (ReleaseButton hub keypad button3))
     = "#DEVICE,Keypad,3,4" +:+ Str.CRLF
  /\ wire (buildCommand (PressButton hub keypad button3))
     <> "#DEVICE,9,3,3" +:+ Str.CRLF
  /\ wire (buildCommand (ReleaseButton hub keypad button3))
     <> "#DEVICE,9,3,4" +:+ Str.CRLF.
Proof. repeat split; try reflexivity; vm_compute; discriminate. Qed.

(** Zone 12 resolves and opCode 2 is not the supported code: the frame
    yields no command, and the scan loop sends nothing on the event
    channel. *)
Lemma C6_counterexample :
  Device.Zones hub !! "12" = Some zone12
  /\ parseCommandString hub unknown_op_frame = Ok (None, SrcZone zone12)
  /\ Runtime.evpFire ready = Some 1%nat
  /\ Runtime.onFrame hub unknown_op_frame ready = (Ok tt, ready)
  /\ Runtime.trace (snd (Runtime.onFrame hub zone_frame ready))
     <> Runtime.trace ready.
Proof. repeat split; try (vm_compute; reflexivity). vm_compute. discriminate. Qed.

Lemma C6_witness :
  Regexp.FindStringSubmatch Regexp.zone_re unknown_op_frame
    = Some [unknown_op_frame; "12"; "2"; "55.00"]
  /\ ParseFloat "55.00" = Some fifty_five
  /\ (parseCommandString hub unknown_op_frame = Ok (None, SrcZone zone12)
      /\ Runtime.onFrame hub unknown_op_frame ready = (Ok tt, ready)).
Proof.
  split; [vm_compute; reflexivity |].
  split; [vm_compute; reflexivity |].
  apply (C6_unknown_op_builds_no_command hub unknown_op_frame unknown_op_frame
           "12" "2" "55.00" fifty_five zone12 ready);
    try (vm_compute; reflexivity).
  discriminate.
Defined.

End TranslatorExamples.

(* ===================================================================== *)
(** * The tokenizer: frames and fragments *)
(* ===================================================================== *)

Section TokenizerFacts.
Import Utf8 Regexp Scanner.
Context `{RA : RuneAlloc}.

(** What a successful greedy run took and where the rest matched. *)
Lemma star_inv (c : cls) (k : list (rune * nat) -> nat -> option matched)
    (s : list (rune * nat)) :
  forall pos m, star c k s pos = Some m ->
  exists pre post, s = pre ++ post
    /\ Forall (fun rw => cls_match c (fst rw) = true) pre
    /\ k post (pos + width_sum pre)%nat = Some m.
Proof.
  induction s as [|[r w] s IH]; intros pos m H; simpl in H.
  - exists [], []. repeat split; [constructor |]. now rewrite Nat.add_0_r.
  - destruct (cls_match c r) eqn:Hc.
    + destruct (star c k s (pos + w)%nat) as [m'|] eqn:Hs.
      * injection H as <-. destruct (IH _ _ Hs) as (pre & post & -> & Hpre & Hk).
        exists ((r, w) :: pre), post. repeat split.
        -- constructor; [exact Hc | exact Hpre].
        -- unfold width_sum in *. simpl. now rewrite Nat.add_assoc.
      * exists [], ((r, w) :: s). repeat split; [constructor |].
        now rewrite Nat.add_0_r.
    + exists [], ((r, w) :: s). repeat split; [constructor |].
      now rewrite Nat.add_0_r.
Qed.

(** The shape of a match of the split pattern. *)
Lemma split_re_inv (s : list (rune * nat)) (pos e : nat) (bs : list nat) :
  exec split_re s pos = Some (e, bs) ->
  exists front w rest,
    s = front ++ (10, w) :: rest
    /\ lf_free front
    /\ e = (pos + width_sum front + w)%nat.
Proof.
  unfold split_re. cbn [exec].
  destruct s as [|[r1 w1] s]; [discriminate |].
  destruct (cls_match (OneOf "~|#") r1) eqn:H1; [| discriminate].
  destruct s as [|[r2 w2] s]; [discriminate |].
  destruct (cls_match (OneOf "OUTPUT|DEVICE") r2) eqn:H2; [| discriminate].
  destruct s as [|[r3 w3] s]; [discriminate |].
  destruct (cls_match AnyNotNL r3) eqn:H3; [| discriminate].
  intros H. apply star_inv in H as (pre & post & -> & Hpre & Hk).
  destruct post as [|[r4 w4] post]; [discriminate |].
  destruct (cls_match (Lit Str.CR) r4) eqn:H4; [| discriminate].
  destruct post as [|[r5 w5] post]; [discriminate |].
  destruct (cls_match (Lit Str.LF) r5) eqn:H5; [| discriminate].
  injection Hk as <- <-.
  simpl in H4, H5. apply N.eqb_eq in H4, H5. subst r4 r5.
  exists ((r1, w1) :: (r2, w2) :: (r3, w3) :: pre ++ [(byteN Str.CR, w4)]), w5, post.
  repeat split.
  - simpl. now rewrite <- app_assoc.
  - unfold lf_free. repeat constructor; simpl fst.
    + intros ->. discriminate.
    + intros ->. discriminate.
    + intros ->. discriminate.
    + apply Forall_app. split; [| repeat constructor; discriminate].
      eapply Forall_impl; [exact Hpre |]. intros [r w] Hr. simpl in *. intros ->. discriminate.
  - unfold width_sum. simpl. rewrite map_app, list_sum_app. simpl. lia.
Qed.

Lemma exec_lf_free (s : list (rune * nat)) (pos : nat) :
  lf_free s -> exec split_re s pos = None.
Proof.
  intros Hs. destruct (exec split_re s pos) as [[e bs]|] eqn:He; [| reflexivity].
  apply split_re_inv in He as (front & w & rest & -> & _ & _).
  apply Forall_app in Hs as [_ Hs]. inversion Hs as [|? ? Hx _]. now elim Hx.
Qed.




Lemma byte_runes_unit (s : string) : unit_width (byte_runes s).
Proof.
  unfold unit_width, byte_runes. induction (list_ascii_of_string s); simpl;
    constructor; auto.
Qed.

Lemma byte_runes_length (s : string) : List.length (byte_runes s) = String.length s.
Proof.
  unfold byte_runes. rewrite length_map.
  induction s as [|b s IH]; simpl; [reflexivity | now rewrite IH].
Qed.

Lemma byte_runes_append (a b : string) :
  byte_runes (a +:+ b) = byte_runes a ++ byte_runes b.
Proof.
  unfold byte_runes. induction a as [|x a IH]; simpl; [reflexivity | now rewrite IH].
Qed.

Lemma width_sum_unit (s : list (rune * nat)) :
  unit_width s -> width_sum s = List.length s.
Proof.
  unfold width_sum. induction 1 as [|[r w] s Hx _ IH]; simpl in *; [reflexivity |].
  now rewrite Hx, IH.
Qed.






Lemma find_inv (p : regex) (s : list (rune * nat)) :
  forall pos i0 i1 bs, find p s pos = Some (i0 :: i1 :: bs) ->
  exists pre post, s = pre ++ post /\ exec p post i0 = Some (i1, bs).
Proof.
  induction s as [|[r w] s IH]; intros pos i0 i1 bs H; cbn [find] in H.
  - destruct (exec p [] pos) as [[e cs]|] eqn:He; [| discriminate].
    injection H as <- <- <-. now exists [], [].
  - destruct (exec p ((r, w) :: s) pos) as [[e cs]|] eqn:He.
    + injection H as <- <- <-. now exists [], ((r, w) :: s).
    + destruct (IH _ _ _ _ H) as (pre & post & -> & Hp).
      now exists ((r, w) :: pre), post.
Qed.

(** The split function returns a token only from data that holds the
    line feed of the terminator: bytes without one are never emitted. *)
Lemma split_token_has_terminator (data tok : string) (atEOF : bool) (adv : nat) :
  split data atEOF = Some (adv, Some tok) -> ~ lf_free (decode data).
Proof.
  unfold split, FindStringIndex, FindStringSubmatchIndex.
  destruct (find split_re (decode data) 0) as [[|i0 [|i1 bs]]|] eqn:Hf;
    try discriminate.
  intros _ Hfree.
  destruct (find_inv _ _ _ _ _ _ Hf) as (pre & post & E & He).
  rewrite E in Hfree. apply Forall_app in Hfree as [_ Hfree].
  now rewrite (exec_lf_free post i0 Hfree) in He.
Qed.












End TokenizerFacts.

(* ===================================================================== *)
(** * The tokenizer outside ASCII *)
(* ===================================================================== *)

Section RuneSliceFacts.
Import Utf8 Regexp Scanner.
Context `{RA : RuneAlloc}.

Lemma decode_from_length (s : string) :
  forall skip, (List.length (decode_from skip s) <= String.length s)%nat.
Proof.
  induction s as [|b t IH]; intros skip; cbn [decode_from]; [simpl; lia |].
  destruct skip as [|k].
  - cbn [List.length String.length]. specialize (IH (snd (DecodeRune (String b t)) - 1)%nat). lia.
  - specialize (IH k). simpl String.length. lia.
Qed.

Lemma runes_length_le (s : string) : (List.length (runes s) <= String.length s)%nat.
Proof. unfold runes, decode. rewrite length_map. apply decode_from_length. Qed.

Lemma lor_high_l (a b : N) : (128 <=? a) = true -> (128 <=? N.lor a b) = true.
Proof.
  intros H. apply N.leb_le in H. apply N.leb_le.
  destruct (N.le_gt_cases 128 (N.lor a b)) as [Hle | Hlt]; [exact Hle | exfalso].
  assert (E : N.shiftr (N.lor a b) 7 = 0).
  { rewrite N.shiftr_div_pow2. apply N.div_small. exact Hlt. }
  rewrite N.shiftr_lor in E. apply N.lor_eq_0_iff in E as [E _].
  rewrite N.shiftr_div_pow2 in E.
  apply N.div_small_iff in E; [| discriminate].
  change (2 ^ 7) with 128 in E. lia.
Qed.

Lemma lor_high_r (a b : N) : (128 <=? b) = true -> (128 <=? N.lor a b) = true.
Proof. rewrite N.lor_comm. apply lor_high_l. Qed.

Ltac bytes b := destruct b as [[] [] [] [] [] [] [] []].

Lemma lead2_high (b0 : ascii) :
  lead_size (byteN b0) = 2%nat -> (128 <=? N.shiftl (low 5 (byteN b0)) 6) = true.
Proof. bytes b0; vm_compute; intros H; first [reflexivity | discriminate H]. Qed.

Lemma lead3_high (b0 b1 : ascii) :
  lead_size (byteN b0) = 3%nat -> second_ok (byteN b0) (byteN b1) = true ->
  (128 <=? N.lor (N.shiftl (low 4 (byteN b0)) 12) (N.shiftl (low 6 (byteN b1)) 6)) = true.
Proof.
  intros H3 H2.
  bytes b0; try (vm_compute in H3; discriminate H3);
    first [ apply lor_high_l; vm_compute; reflexivity
          | apply lor_high_r; bytes b1; vm_compute in H2 |- *;
            first [reflexivity | discriminate H2] ].
Qed.

Lemma lead4_high (b0 b1 : ascii) :
  lead_size (byteN b0) = 4%nat -> second_ok (byteN b0) (byteN b1) = true ->
  (128 <=? N.lor (N.shiftl (low 3 (byteN b0)) 18) (N.shiftl (low 6 (byteN b1)) 12)) = true.
Proof.
  intros H4 H2.
  bytes b0; try (vm_compute in H4; discriminate H4);
    first [ apply lor_high_l; vm_compute; reflexivity
          | apply lor_high_r; bytes b1; vm_compute in H2 |- *;
            first [reflexivity | discriminate H2] ].
Qed.

(** A byte outside ASCII starts a rune outside ASCII: a decoded value of
    two bytes or more, or [RuneError]. *)
Lemma DecodeRune_high (b0 : ascii) (t0 : string) :
  (byteN b0 <? 128) = false ->
  (128 <=? fst (DecodeRune (String b0 t0))) = true.
Proof.
  intros Hb. unfold DecodeRune. rewrite Hb.
  destruct (lead_size (byteN b0)) as [|[|[|[|[|n]]]]] eqn:Hl; try reflexivity.
  - destruct t0 as [|b1 t1]; try reflexivity.
    destruct (second_ok (byteN b0) (byteN b1)); [| reflexivity].
    cbn [fst]. apply lor_high_l. now apply lead2_high.
  - destruct t0 as [|b1 [|b2 t2]]; try reflexivity.
    destruct (second_ok (byteN b0) (byteN b1)) eqn:H2; [| reflexivity].
    destruct (cont_byte (byteN b2)); [| reflexivity].
    cbn [andb fst]. rewrite N.lor_assoc. apply lor_high_l. now apply lead3_high.
  - destruct t0 as [|b1 [|b2 [|b3 t3]]]; try reflexivity.
    destruct (second_ok (byteN b0) (byteN b1)) eqn:H2; [| reflexivity].
    destruct (cont_byte (byteN b2)); [| reflexivity].
    destruct (cont_byte (byteN b3)); [| reflexivity].
    cbn [andb fst]. rewrite N.lor_assoc. apply lor_high_l. now apply lead4_high.
Qed.

(** Text that is not all ASCII has a rune outside ASCII. *)
Lemma runes_high (s : string) :
  is_ascii s = false -> Exists (fun r => (128 <=? r) = true) (runes s).
Proof.
  unfold runes, decode.
  induction s as [|b t IH]; intros H; [discriminate |].
  cbn [decode_from map].
  destruct (byteN b <? 128) eqn:Hb.
  - unfold is_ascii in H. cbn [Str.all] in H. rewrite Hb in H. cbn [andb] in H.
    apply Exists_cons_tl.
    assert (E : snd (DecodeRune (String b t)) = 1%nat).
    { unfold DecodeRune. now rewrite Hb. }
    rewrite E. apply IH. exact H.
  - apply Exists_cons_hd. now apply DecodeRune_high.
Qed.

Lemma encode_rune_length (r : rune) :
  (1 <= String.length (encode_rune r))%nat
  /\ ((128 <=? r) = true -> (2 <= String.length (encode_rune r))%nat).
Proof.
  unfold encode_rune.
  destruct (r <? 128) eqn:H1.
  - split; [simpl; lia |]. intros H. apply N.leb_le in H. apply N.ltb_lt in H1. lia.
  - destruct (r <? 2048); [simpl; lia |].
    destruct ((MaxRune <? r) || in_range 55296 57343 r); [simpl; lia |].
    destruct (r <? 65536); simpl; lia.
Qed.

Lemma string_of_runes_app (a b : list rune) :
  string_of_runes (a ++ b) = string_of_runes a +:+ string_of_runes b.
Proof. unfold string_of_runes. now rewrite map_app, concat_app. Qed.

Lemma string_of_runes_length (rs : list rune) :
  (List.length rs <= String.length (string_of_runes rs))%nat.
Proof.
  induction rs as [|r rs IH]; [simpl; lia |].
  change (string_of_runes (r :: rs)) with (encode_rune r +:+ string_of_runes rs).
  rewrite length_append. destruct (encode_rune_length r) as [H _].
  simpl List.length. lia.
Qed.

Lemma string_of_runes_longer (rs : list rune) :
  Exists (fun r => (128 <=? r) = true) rs ->
  (List.length rs < String.length (string_of_runes rs))%nat.
Proof.
  induction 1 as [r rs Hr | r rs _ IH];
    change (string_of_runes (r :: rs)) with (encode_rune r +:+ string_of_runes rs);
    rewrite length_append; simpl List.length.
  - destruct (encode_rune_length r) as [_ H]. specialize (H Hr).
    pose proof (string_of_runes_length rs). lia.
  - destruct (encode_rune_length r) as [H _]. lia.
Qed.

Lemma complete_frame_parts (F : string) :
  complete_frame F = true ->
  Regexp.FindStringIndex split_re F = Some (0%nat, String.length F)
  /\ N.of_nat (String.length F) <= MaxScanTokenSize.
Proof.
  unfold complete_frame. intros H. apply andb_prop in H as [Hm Hn].
  split; [| now apply N.leb_le].
  destruct (FindStringIndex split_re F) as [[i0 i1]|]; [| discriminate].
  apply andb_prop in Hm as [H0 H1].
  apply Nat.eqb_eq in H0, H1. now subst.
Qed.

(** The split function on a complete frame that is not all ASCII: a
    slice-bounds panic, or a token longer than the frame. *)
Lemma split_non_ascii_frame (F : string) (atEOF : bool) :
  complete_frame F = true -> is_ascii F = false ->
  split F atEOF = None
  \/ exists tok, split F atEOF = Some (String.length F, Some tok)
       /\ (String.length F < String.length tok)%nat.
Proof.
  intros Hc Ha. destruct (complete_frame_parts F Hc) as [Hm _].
  unfold split. rewrite Hm. unfold slice_runes.
  destruct (decide _) as [[_ Hcap]|_]; [right | now left].
  eexists. split; [reflexivity |].
  pose proof (runes_length_le F) as Hn.
  rewrite Nat.sub_0_r, drop_0, firstn_app, firstn_all2 by lia.
  rewrite string_of_runes_app, length_append.
  pose proof (string_of_runes_longer _ (runes_high F Ha)) as H1.
  pose proof (string_of_runes_length
                (firstn (String.length F - List.length (runes F))
                   (repeat 0 (rune_cap (List.length (runes F)) - List.length (runes F)))))
    as H2.
  rewrite length_firstn, repeat_length in H2. unfold rune in *. lia.
Qed.

(** C7, on the code. The split function takes the byte offsets of the
    match as indices of the rune slice. On a complete frame with a byte
    outside ASCII the two differ: the call ends in a slice-bounds panic, or
    the token is longer than the frame (runes re-encoded, and NUL bytes for
    the room past the runes), so the scanner does not deliver the frame. *)
Theorem C7_non_ascii_frame_is_not_delivered
    (F : string) (atEOF failed : bool) :
  complete_frame F = true ->
  is_ascii F = false ->
  (split F atEOF = None
   \/ exists tok, split F atEOF = Some (String.length F, Some tok)
        /\ (String.length F < String.length tok)%nat)
  /\ split F atEOF <> Some (String.length F, Some F)
  /\ fst (Scan (mkInput [F] failed)) <> [F].
Proof.
  intros Hc Ha.
  assert (Hne : forall b, split F b <> Some (String.length F, Some F)).
  { intros b. destruct (split_non_ascii_frame F b Hc Ha) as [E | (tok & E & Hl)];
      rewrite E; [discriminate |].
    intros X. injection X as X. subst tok. lia. }
  split; [now apply split_non_ascii_frame |]. split; [apply Hne |].
  unfold Scan. cbn [chunks Scanner.failed scan].
  change (drain (S (String.length "")) "") with (@nil string, Some "").
  cbn iota. change (MaxScanTokenSize <=? N.of_nat (String.length "")) with false.
  cbn iota. simpl String.append. cbn [scan drain].
  destruct (split_non_ascii_frame F false Hc Ha) as [E | (tok & E & Hl)]; rewrite E.
  - simpl. discriminate.
  - destruct (drain (String.length F) (Str.drop (String.length F) F)) as [toks [rest|]];
      simpl; intros X; injection X as X _; subst tok; lia.
Qed.

End RuneSliceFacts.

Section TokenizerExamples.
Import Demo Scanner.


(** The frame with the two-byte rune: complete, not ASCII, and not what
    the scanner delivers. *)
Lemma C7_accent_frame :
  complete_frame accent_frame = true
  /\ Utf8.is_ascii accent_frame = false
  /\ ((split accent_frame false = None
       \/ exists tok, split accent_frame false
                      = Some (String.length accent_frame, Some tok)
            /\ (String.length accent_frame < String.length tok)%nat)
      /\ split accent_frame false
         <> Some (String.length accent_frame, Some accent_frame)
      /\ fst (Scan (mkInput [accent_frame] false)) <> [accent_frame]).
Proof.
  split; [vm_compute; reflexivity |].
  split; [vm_compute; reflexivity |].
  apply (C7_non_ascii_frame_is_not_delivered accent_frame false false);
    vm_compute; reflexivity.
Defined.

(** Two frames and noise in one stream come out in arrival order, and the
    bytes of an unfinished third frame are not emitted. *)
Example frames_in_arrival_order :
  Scan (mkInput ["xx~OUT"; "PUT,12,1,55.00" +:+ Str.CRLF +:+ "junk#DEV";
                 "ICE,9,3,3" +:+ Str.CRLF +:+ "~OUTPUT,12"] true)
  = ([zone_frame; "#DEVICE,9,3,3" +:+ Str.CRLF], ReadFailed).
Proof. vm_compute. reflexivity. Qed.

(** Outside ASCII the byte offsets of the match do not index the rune
    slice: for a zone id with a two-byte rune the upper offset (16) is past
    the 15 runes of the text, and the token is the text with a NUL byte
    after it. *)
Example two_byte_rune_pads_the_token :
  Regexp.FindStringIndex Regexp.split_re accent_frame = Some (0, 16)%nat
  /\ List.length (Utf8.runes accent_frame) = 15%nat
  /\ split accent_frame false
     = Some (16%nat, Some (accent_frame +:+ String (ascii_of_nat 0) EmptyString)).
Proof. vm_compute. repeat split. Qed.

End TokenizerExamples.

(* ===================================================================== *)
(** * The streaming cycle: pool, trace and loop *)
(* ===================================================================== *)

Import Runtime.

Section StreamFacts.
Context `{SC : Strconv} `{RA : Utf8.RuneAlloc}.
Variable d : Device.t.

Lemma inner_step_refl (w : World) : inner_step w w.
Proof. split; [reflexivity |]. exists []. now rewrite app_nil_r. Qed.

Lemma inner_step_trans (w1 w2 w3 : World) :
  inner_step w1 w2 -> inner_step w2 w3 -> inner_step w1 w3.
Proof.
  intros [Hp1 (s1 & E1 & I1)] [Hp2 (s2 & E2 & I2)]. split; [congruence |].
  exists (s1 ++ s2). rewrite E2, E1, <- app_assoc. split; [reflexivity |].
  now rewrite forallb_app, I1, I2.
Qed.

Lemma inner_step_note (o : obs) (w : World) : inner o = true -> inner_step w (note o w).
Proof.
  intros H. split; [reflexivity |]. exists [o]. split; [reflexivity |].
  simpl. now rewrite H.
Qed.

Lemma chan_send_inner (ch : ChanID) (v : chanValue) (w : World) :
  inner_step w (snd (chan_send ch v w)).
Proof.
  unfold chan_send. destruct (chans w !! ch) as [c|]; [| apply inner_step_refl].
  destruct (closed c); [apply inner_step_refl |].
  split; [reflexivity |]. exists [ObsSend ch v]. now split.
Qed.

Lemma onFrame_inner (orig : string) (w : World) : inner_step w (snd (onFrame d orig w)).
Proof.
  unfold onFrame. destruct (evpFire w) as [ch|]; [| apply inner_step_refl].
  destruct (parseCommandString d orig) as [[[cmd|] src]|];
    try apply inner_step_refl.
  apply chan_send_inner.
Qed.

Lemma onFrames_inner (toks : list string) :
  forall w, inner_step w (snd (onFrames d toks w)).
Proof.
  induction toks as [|orig toks IH]; intros w; cbn [onFrames].
  - apply inner_step_refl.
  - pose proof (onFrame_inner orig w) as H1.
    destruct (onFrame d orig w) as [[[]|] w1]; simpl in H1.
    + eapply inner_step_trans; [exact H1 | apply IH].
    + exact H1.
Qed.

Lemma stream_body_inner (conn : Conn) (i : Scanner.input) (w : World) :
  inner_step w (snd (stream_body d conn i w)).
Proof.
  unfold stream_body. destruct (Scanner.Scan i) as [toks e].
  pose proof (onFrames_inner toks (note ObsLogV w)) as H1.
  assert (H0 : inner_step w (note ObsLogV w)) by now apply inner_step_note.
  destruct (onFrames d toks (note ObsLogV w)) as [[[]|] w1]; simpl in H1.
  - destruct e; simpl;
      try (eapply inner_step_trans; [exact H0 |];
           eapply inner_step_trans; [exact H1 |]; now apply inner_step_note).
    eapply inner_step_trans; [exact H0 | exact H1].
  - simpl. eapply inner_step_trans; [exact H0 | exact H1].
Qed.


Lemma inner_filter (f : obs -> bool) (mid : list obs) :
  (forall o, inner o = true -> f o = false) ->
  forallb inner mid = true -> List.filter f mid = [].
Proof.
  intros Hf. induction mid as [|o mid IH]; [reflexivity |].
  simpl. intros Hi. apply andb_prop in Hi as [Ho Hi].
  rewrite (Hf o Ho). now apply IH.
Qed.

Lemma inner_fixed_delay (mid : list obs) :
  forallb inner mid = true -> fixed_delay mid = true.
Proof.
  unfold fixed_delay. induction mid as [|o mid IH]; [reflexivity |].
  simpl. intros Hi. apply andb_prop in Hi as [Ho Hi].
  rewrite (IH Hi). now destruct o.
Qed.

(** What a call of [stream] does to the trace and the pool. *)
Lemma stream_shape (i : Scanner.input) (w : World) :
  match Pool_Get (pool w) with
  | (Some conn, rest) =>
    (exists mid,
        trace (snd (stream d i w))
        = trace w ++ [ObsLogV; ObsGet (Some conn)] ++ mid ++ [ObsRelease conn]
        /\ forallb inner mid = true)
    /\ pool (snd (stream d i w)) = Pool_Release conn rest
  | (None, _) =>
    stream d i w = (Returned (Some ErrConnect), snd (stream d i w))
    /\ trace (snd (stream d i w)) = trace w ++ [ObsLogV; ObsGet None]
    /\ pool (snd (stream d i w)) = pool w
  end.
Proof.
  unfold stream, Connect. cbn [pool note set_pool trace].
  destruct (Pool_Get (pool w)) as [[conn|] rest] eqn:Hg.
  - pose proof (stream_body_inner conn i
                  (note (ObsGet (Some conn)) (set_pool rest (note ObsLogV w)))) as Hb.
    destruct (stream_body d conn i _) as [out w2]. cbn [snd] in *.
    destruct Hb as [Hp (mid & Et & Hi)]. cbn [pool trace note set_pool] in Hp, Et.
    split.
    + exists mid. split; [| exact Hi].
      unfold ReleaseConnection. cbn [trace note set_pool]. rewrite Et.
      now rewrite <- !app_assoc.
    + unfold ReleaseConnection. cbn [pool note set_pool]. now rewrite Hp.
  - cbn [snd]. repeat split.
    + cbn [trace note set_pool]. now rewrite <- app_assoc.
    + cbn [pool note set_pool]. unfold Pool_Get in Hg.
      destruct (idle (pool w)) eqn:Hi; [| discriminate].
      injection Hg as <-. reflexivity.
Qed.

(** C8. Whatever the connection delivers and however the cycle ends
    (scanner at end of input, read or stream error, panic while a frame is
    handled), a call of [stream] that obtains a connection from the pool
    adds to the trace one [Get], observations of the scan loop, and then
    exactly one [Release] of that connection, and the pool holds the
    connection again; a call that obtains none returns the connect error
    and releases nothing. *)
Theorem C8_connection_released_exactly_once (i : Scanner.input) (w : World) :
  match Pool_Get (pool w) with
  | (Some conn, rest) =>
    exists seg, trace (snd (stream d i w)) = trace w ++ seg
      /\ one_cycle conn seg
      /\ count_get seg = 1%nat
      /\ count_release conn seg = 1%nat
      /\ (forall c, c <> conn -> count_release c seg = 0%nat)
      /\ pool (snd (stream d i w)) = Pool_Release conn rest
  | (None, _) =>
    stream d i w = (Returned (Some ErrConnect), snd (stream d i w))
    /\ trace (snd (stream d i w)) = trace w ++ [ObsLogV; ObsGet None]
    /\ pool (snd (stream d i w)) = pool w
  end.
Proof.
  pose proof (stream_shape i w) as H.
  destruct (Pool_Get (pool w)) as [[conn|] rest]; [| exact H].
  destruct H as [(mid & Et & Hi) Hp].
  exists ([ObsLogV; ObsGet (Some conn)] ++ mid ++ [ObsRelease conn]).
  split; [exact Et |]. split; [now exists mid |].
  repeat split.
  - unfold count_get. rewrite !List.filter_app, (inner_filter _ mid); [reflexivity | | exact Hi].
    now intros [] Ho.
  - unfold count_release. rewrite !List.filter_app, (inner_filter _ mid); [| | exact Hi].
    + simpl. now rewrite Nat.eqb_refl.
    + now intros [] Ho.
  - intros c Hc. unfold count_release.
    rewrite !List.filter_app, (inner_filter _ mid); [| | exact Hi].
    + simpl. apply Nat.eqb_neq in Hc. now rewrite Hc.
    + now intros [] Ho.
  - exact Hp.
Qed.

(** One call of [stream] is one attempt, without a sleep. *)
Lemma stream_attempt (i : Scanner.input) (w : World) :
  exists seg, trace (snd (stream d i w)) = trace w ++ seg
    /\ count_attempts seg = 1%nat
    /\ count_sleeps seg = 0%nat
    /\ fixed_delay seg = true.
Proof.
  pose proof (stream_shape i w) as H.
  destruct (Pool_Get (pool w)) as [[conn|] rest].
  - destruct H as [(mid & Et & Hi) _].
    exists ([ObsLogV; ObsGet (Some conn)] ++ mid ++ [ObsRelease conn]).
    split; [exact Et |]. repeat split.
    + unfold count_attempts.
      rewrite !List.filter_app, (inner_filter _ mid); [reflexivity | | exact Hi].
      now intros [] Ho.
    + unfold count_sleeps.
      rewrite !List.filter_app, (inner_filter _ mid); [reflexivity | | exact Hi].
      now intros [] Ho.
    + unfold fixed_delay in *. rewrite !forallb_app.
      pose proof (inner_fixed_delay mid Hi) as Hf. unfold fixed_delay in Hf.
      now rewrite Hf.
  - destruct H as (_ & Et & _). exists [ObsLogV; ObsGet None]. now repeat split.
Qed.

Lemma count_attempts_app (a b : list obs) :
  count_attempts (a ++ b) = (count_attempts a + count_attempts b)%nat.
Proof. unfold count_attempts. now rewrite List.filter_app, length_app. Qed.

Lemma count_sleeps_app (a b : list obs) :
  count_sleeps (a ++ b) = (count_sleeps a + count_sleeps b)%nat.
Proof. unfold count_sleeps. now rewrite List.filter_app, length_app. Qed.

Lemma fixed_delay_app (a b : list obs) :
  fixed_delay (a ++ b) = fixed_delay a && fixed_delay b.
Proof. unfold fixed_delay. apply forallb_app. Qed.

Lemma loop_step_progress (i : Scanner.input) (l : loc) (w : World) :
  l <> LoopReturned ->
  fst (loop_step d i l w) <> LoopReturned
  /\ exists seg, trace (snd (loop_step d i l w)) = trace w ++ seg
       /\ fixed_delay seg = true
       /\ (fst (loop_step d i l w) <> Crashed ->
           (count_attempts seg + pending l
            = count_sleeps seg + pending (fst (loop_step d i l w)))%nat
           /\ (1 + slack l <= 3 * count_attempts seg
                              + slack (fst (loop_step d i l w)))%nat).
Proof.
  intros Hl. destruct l; cbn [loop_step]; try now elim Hl.
  - destruct (stream_attempt i w) as (seg & Et & Ha & Hs & Hf).
    destruct (stream d i w) as [[[e|]|] w']; cbn [fst snd] in *;
      (split; [discriminate |]); exists seg; (split; [exact Et |]);
      (split; [exact Hf |]); intros Hc; try now elim Hc.
    + rewrite Ha, Hs. simpl. lia.
    + rewrite Ha, Hs. simpl. lia.
  - split; [discriminate |]. exists [ObsLogE]. repeat split; simpl; lia.
  - split; [discriminate |]. exists [ObsSleep 10]. repeat split; simpl; lia.
  - split; [discriminate |]. exists []. rewrite app_nil_r.
    split; [reflexivity |]. split; [reflexivity |].
    intros Hc. now elim Hc.
Qed.

Lemma startStreaming_crashed (ins : list Scanner.input) (w : World) :
  startStreaming d ins Crashed w = (Crashed, w).
Proof. induction ins as [|i ins IH]; cbn [startStreaming loop_step]; auto. Qed.

Lemma startStreaming_progress (ins : list Scanner.input) :
  forall (l : loc) (w : World),
  l <> LoopReturned ->
  fst (startStreaming d ins l w) <> LoopReturned
  /\ exists seg, trace (snd (startStreaming d ins l w)) = trace w ++ seg
       /\ fixed_delay seg = true
       /\ (fst (startStreaming d ins l w) <> Crashed ->
           (count_attempts seg + pending l
            = count_sleeps seg + pending (fst (startStreaming d ins l w)))%nat
           /\ (List.length ins + slack l
               <= 3 * count_attempts seg
                  + slack (fst (startStreaming d ins l w)))%nat).
Proof.
  induction ins as [|i ins IH]; intros l w Hl; cbn [startStreaming].
  - split; [exact Hl |]. exists []. rewrite app_nil_r. repeat split; simpl; lia.
  - destruct (loop_step_progress i l w Hl) as (Hl1 & seg1 & E1 & F1 & P1).
    destruct (loop_step d i l w) as [l1 w1]. cbn [fst snd] in *.
    destruct (IH l1 w1 Hl1) as (Hl2 & seg2 & E2 & F2 & P2).
    split; [exact Hl2 |]. exists (seg1 ++ seg2).
    split; [rewrite E2, E1; now rewrite app_assoc |].
    split; [now rewrite fixed_delay_app, F1, F2 |].
    intros Hc.
    assert (Hc1 : l1 <> Crashed).
    { intros ->. rewrite startStreaming_crashed in Hc. now elim Hc. }
    destruct (P1 Hc1) as [B1 S1]. destruct (P2 Hc) as [B2 S2].
    rewrite count_attempts_app, count_sleeps_app. simpl length. lia.
Qed.

(** Nothing in the cycle reads whether the device was removed. *)
Lemma chan_send_removed (b : bool) (ch : ChanID) (v : chanValue) (w : World) :
  chan_send ch v (set_removed b w)
  = (fst (chan_send ch v w), set_removed b (snd (chan_send ch v w))).
Proof.
  unfold chan_send. cbn [chans set_removed].
  destruct (chans w !! ch) as [c|]; [| reflexivity].
  now destruct (closed c).
Qed.

Lemma onFrame_removed (b : bool) (orig : string) (w : World) :
  onFrame d orig (set_removed b w)
  = (fst (onFrame d orig w), set_removed b (snd (onFrame d orig w))).
Proof.
  unfold onFrame. cbn [evpFire set_removed].
  destruct (evpFire w) as [ch|]; [| reflexivity].
  destruct (parseCommandString d orig) as [[[cmd|] src]|]; try reflexivity.
  apply chan_send_removed.
Qed.

Lemma onFrames_removed (b : bool) (toks : list string) :
  forall w, onFrames d toks (set_removed b w)
            = (fst (onFrames d toks w), set_removed b (snd (onFrames d toks w))).
Proof.
  induction toks as [|orig toks IH]; intros w; cbn [onFrames]; [reflexivity |].
  rewrite onFrame_removed.
  destruct (onFrame d orig w) as [[[]|] w1]; cbn [fst snd]; [apply IH | reflexivity].
Qed.

Lemma stream_removed (b : bool) (i : Scanner.input) (w : World) :
  stream d i (set_removed b w)
  = (fst (stream d i w), set_removed b (snd (stream d i w))).
Proof.
  unfold stream, Connect. cbn [pool note set_removed].
  destruct (Pool_Get (pool w)) as [[conn|] rest]; [| reflexivity].
  unfold stream_body. destruct (Scanner.Scan i) as [toks e].
  change (note ObsLogV (note (ObsGet (Some conn)) (set_pool rest (note ObsLogV (set_removed b w)))))
    with (set_removed b (note ObsLogV (note (ObsGet (Some conn)) (set_pool rest (note ObsLogV w))))).
  rewrite onFrames_removed.
  destruct (onFrames d toks _) as [[[]|] w1]; cbn [fst snd]; [| reflexivity].
  now destruct e.
Qed.

Lemma loop_step_removed (b : bool) (i : Scanner.input) (l : loc) (w : World) :
  loop_step d i l (set_removed b w)
  = (fst (loop_step d i l w), set_removed b (snd (loop_step d i l w))).
Proof.
  destruct l; cbn [loop_step]; try reflexivity.
  rewrite stream_removed. now destruct (stream d i w) as [[[e|]|] w'].
Qed.

Lemma startStreaming_removed (b : bool) (ins : list Scanner.input) :
  forall l w, startStreaming d ins l (set_removed b w)
              = (fst (startStreaming d ins l w),
                 set_removed b (snd (startStreaming d ins l w))).
Proof.
  induction ins as [|i ins IH]; intros l w; cbn [startStreaming]; [reflexivity |].
  rewrite loop_step_removed. destruct (loop_step d i l w) as [l1 w1]. apply IH.
Qed.

(** The loop reaches its crashed state only through a call of [stream]
    that panics. *)
Lemma loop_step_crashed (i : Scanner.input) (l : loc) (w : World) :
  fst (loop_step d i l w) = Crashed
  <-> l = Crashed \/ (l = AtStream /\ fst (stream d i w) = Panicked).
Proof.
  destruct l; cbn [loop_step fst]; try (split; [discriminate | now intros [|[]]]).
  - destruct (stream d i w) as [[[e|]|] w']; cbn [fst];
      (split; [try discriminate; auto | intros [H|[_ H]]; try discriminate; auto]).
  - split; auto.
Qed.

Lemma startStreaming_crash_iff (ins : list Scanner.input) :
  forall (l : loc) (w : World),
  l <> Crashed ->
  fst (startStreaming d ins l w) = Crashed <-> cycle_panics d ins l w.
Proof.
  induction ins as [|i0 ins IH]; intros l w Hl.
  - cbn [startStreaming fst]. split; [intros H; now elim Hl |].
    intros (pre & i & post & w1 & E & _). now destruct pre.
  - cbn [startStreaming].
    pose proof (loop_step_crashed i0 l w) as Hstep.
    destruct (loop_step d i0 l w) as [l1 w1'] eqn:Es. cbn [fst] in Hstep.
    assert (Hd : l1 = Crashed \/ l1 <> Crashed) by (destruct l1; auto; right; discriminate).
    destruct Hd as [-> | Hl1].
    + rewrite startStreaming_crashed. cbn [fst].
      destruct Hstep as [Hstep _]. destruct (Hstep eq_refl) as [-> | [-> Hp]];
        [now elim Hl |].
      split; [| reflexivity]. intros _.
      exists [], i0, ins, w. repeat split. exact Hp.
    + rewrite (IH l1 w1' Hl1). split.
      * intros (pre & i & post & w1 & E & Hrun & Hp).
        exists (i0 :: pre), i, post, w1. subst ins. split; [reflexivity |].
        split; [| exact Hp]. cbn [startStreaming]. now rewrite Es.
      * intros (pre & i & post & w1 & E & Hrun & Hp).
        destruct pre as [|p pre].
        -- cbn [startStreaming] in Hrun. injection Hrun as -> ->.
           simpl in E. injection E as -> ->.
           destruct Hstep as [_ Hstep]. elim Hl1. apply Hstep. right. now split.
        -- simpl in E. injection E as -> ->.
           cbn [startStreaming] in Hrun. rewrite Es in Hrun.
           now exists pre, i, post, w1.
Qed.

(** A call of [stream] that returns, with an error or without, is
    followed by the sleep, and the loop stands at the next call. *)
Lemma returned_cycle_sleeps (i j k : Scanner.input) (w : World) (e : option error) :
  fst (stream d i w) = Returned e ->
  startStreaming d (i :: match e with None => [j] | Some _ => [j; k] end) AtStream w
  = (AtStream, after_return e (snd (stream d i w))).
Proof.
  intros H. cbn [startStreaming loop_step].
  destruct (stream d i w) as [out w']. cbn [fst snd] in *. subst out.
  now destruct e.
Qed.

(** C3, as the code has it. However many steps the loop of
    [startStreaming] is run and whatever the connections deliver, the loop
    never reaches the point after the [for] statement; a device removed
    from the system makes no difference to the run; every sleep is of ten
    seconds; the run ends crashed exactly when one of its calls of
    [stream] panicked, and otherwise each attempt is followed by its
    sleep before the next one starts, and the attempts keep coming (at
    least one for every three steps); and after every call of [stream]
    that returns, with an error or without, the loop logs the error if
    there is one, sleeps ten seconds and stands at the next call. *)
Theorem C3_retry_loop_never_exits (ins : list Scanner.input) (w : World) :
  fst (startStreaming d ins AtStream w) <> LoopReturned
  /\ startStreaming d ins AtStream (DeleteDevice w)
     = (fst (startStreaming d ins AtStream w),
        DeleteDevice (snd (startStreaming d ins AtStream w)))
  /\ (exists seg,
       trace (snd (startStreaming d ins AtStream w)) = trace w ++ seg
       /\ fixed_delay seg = true
       /\ (fst (startStreaming d ins AtStream w) <> Crashed ->
           (count_attempts seg
            = count_sleeps seg + pending (fst (startStreaming d ins AtStream w)))%nat
           /\ (List.length ins <= 3 * count_attempts seg)%nat))
  /\ (fst (startStreaming d ins AtStream w) = Crashed
      <-> cycle_panics d ins AtStream w)
  /\ (forall (i j k : Scanner.input) (w1 : World) (e : option error),
        fst (stream d i w1) = Returned e ->
        startStreaming d (i :: match e with None => [j] | Some _ => [j; k] end)
          AtStream w1
        = (AtStream, after_return e (snd (stream d i w1)))).
Proof.
  destruct (startStreaming_progress ins AtStream w) as (Hl & seg & E & F & P);
    [discriminate |].
  split; [exact Hl |]. split; [apply startStreaming_removed |].
  split.
  { exists seg. split; [exact E |]. split; [exact F |].
    intros Hc. destruct (P Hc) as [B S]. simpl in B, S.
    split; [lia |]. destruct (fst (startStreaming d ins AtStream w)); simpl in S; lia. }
  split; [now apply startStreaming_crash_iff |].
  intros i j k w1 e. apply returned_cycle_sleeps.
Qed.
End StreamFacts.

(* ===================================================================== *)
(** * The channels of a device *)
(* ===================================================================== *)

Section ChannelFacts.
Context `{SC : Strconv} `{RA : Utf8.RuneAlloc}.
Variable d : Device.t.

Lemma only_fire_refl (w : World) : only_fire w w.
Proof. now split. Qed.

Lemma only_fire_trans (w1 w2 w3 : World) :
  only_fire w1 w2 -> only_fire w2 w3 -> only_fire w1 w3.
Proof.
  intros [E1 H1] [E2 H2]. split; [congruence |].
  intros ch Hch. rewrite H2, H1; [reflexivity | exact Hch | congruence].
Qed.

Lemma chan_send_only_fire (ch : ChanID) (v : chanValue) (w : World) :
  evpFire w = Some ch -> only_fire w (snd (chan_send ch v w)).
Proof.
  intros Hf. unfold chan_send. destruct (chans w !! ch) as [c|]; [| apply only_fire_refl].
  destruct (closed c); [apply only_fire_refl |].
  split; [reflexivity |]. cbn [snd chans note set_chans]. intros ch' Hch'.
  apply list_lookup_insert_ne. congruence.
Qed.

Lemma onFrame_only_fire (orig : string) (w : World) :
  only_fire w (snd (onFrame d orig w)).
Proof.
  unfold onFrame. destruct (evpFire w) as [ch|] eqn:Hf; [| apply only_fire_refl].
  destruct (parseCommandString d orig) as [[[cmd|] src]|];
    try apply only_fire_refl.
  now apply chan_send_only_fire.
Qed.

Lemma onFrames_only_fire (toks : list string) :
  forall w, only_fire w (snd (onFrames d toks w)).
Proof.
  induction toks as [|orig toks IH]; intros w; cbn [onFrames].
  - apply only_fire_refl.
  - pose proof (onFrame_only_fire orig w) as H1.
    destruct (onFrame d orig w) as [[[]|] w1]; cbn [snd] in H1.
    + eapply only_fire_trans; [exact H1 | apply IH].
    + exact H1.
Qed.

Lemma stream_only_fire (i : Scanner.input) (w : World) :
  only_fire w (snd (stream d i w)).
Proof.
  unfold stream, Connect.
  destruct (Pool_Get (pool (note ObsLogV w))) as [[conn|] rest]; [| now split].
  unfold stream_body. destruct (Scanner.Scan i) as [toks e].
  set (w0 := note ObsLogV (note (ObsGet (Some conn)) (set_pool rest (note ObsLogV w)))).
  pose proof (onFrames_only_fire toks w0) as H1.
  assert (H0 : only_fire w w0) by now split.
  destruct (onFrames d toks w0) as [[[]|] w1]; cbn [snd] in H1.
  - destruct e; cbn [snd];
      (eapply only_fire_trans; [exact H0 |]);
      (eapply only_fire_trans; [exact H1 |]); now split.
  - cbn [snd]. eapply only_fire_trans; [exact H0 |].
    eapply only_fire_trans; [exact H1 |]. now split.
Qed.

Lemma loop_step_only_fire (i : Scanner.input) (l : loc) (w : World) :
  only_fire w (snd (loop_step d i l w)).
Proof.
  destruct l; cbn [loop_step]; try now split.
  pose proof (stream_only_fire i w) as H.
  now destruct (stream d i w) as [[[e|]|] w'].
Qed.

Lemma pristine_only_fire (held : list ChanID) (w w' : World) :
  only_fire w w' -> fire_outside held w -> pristine held w ->
  pristine held w' /\ fire_outside held w'.
Proof.
  intros [Ef Hc] Ho Hp. split.
  - unfold pristine in *. rewrite Forall_forall in *. intros ch Hin.
    rewrite Hc; [now apply Hp |]. intros Hf. now apply (Ho ch Hf), list_elem_of_In.
  - intros ch Hf. rewrite Ef in Hf. now apply Ho.
Qed.

Lemma perform_pristine (held : list ChanID) (a : action) (w : World) :
  pristine held w -> fire_outside held w ->
  pristine (held ++ handed (fst (perform d a w))) (snd (perform d a w))
  /\ fire_outside (held ++ handed (fst (perform d a w))) (snd (perform d a w)).
Proof.
  intros Hp Ho.
  assert (Keep : forall w', only_fire w w' ->
            pristine (held ++ []) w' /\ fire_outside (held ++ []) w').
  { intros w' H. rewrite app_nil_r. now apply (pristine_only_fire held w w'). }
  destruct a as [| |c| |c|k i|]; cbn [perform fst snd handed];
    try (apply Keep; now split).
  - (* Connect *)
    apply Keep. unfold Connect. now destruct (Pool_Get (pool w)).
  - (* StartProducingEvents *)
    unfold StartProducingEvents, make_chan.
    cbn [chans set_chans Stream set_evp].
    assert (Hlt : Forall (fun ch => (ch < List.length (chans w))%nat) held).
    { unfold pristine in Hp. rewrite Forall_forall in *. intros ch Hin.
      eapply lookup_lt_Some. now apply Hp. }
    set (cs := (chans w ++ [fresh_chan]) ++ [fresh_chan]).
    assert (Hnew : pristine (held ++ [List.length (chans w)])
                     (set_evp (Some (List.length (chans w)))
                        (Some (List.length (chans w ++ [fresh_chan])))
                        (set_chans cs (set_chans (chans w ++ [fresh_chan]) w)))).
    { unfold pristine. cbn [chans set_evp set_chans]. apply Forall_app. split.
      - unfold pristine in Hp. rewrite Forall_forall in *. intros ch Hin.
        specialize (Hp ch Hin). specialize (Hlt ch Hin). unfold cs.
        rewrite !lookup_app_l; [exact Hp | lia | rewrite length_app; simpl; lia].
      - repeat constructor. unfold cs.
        rewrite lookup_app_l by (rewrite length_app; simpl; lia).
        rewrite lookup_app_r by lia. now rewrite Nat.sub_diag. }
    assert (Hout : forall ch, Some (List.length (chans w ++ [fresh_chan])) = Some ch ->
                   ~ In ch (held ++ [List.length (chans w)])).
    { intros ch [= <-]. rewrite length_app. simpl. intros Hin.
      apply in_app_or in Hin as [Hin | [Hin | []]]; [| lia].
      rewrite Forall_forall in Hlt. apply list_elem_of_In in Hin.
      specialize (Hlt _ Hin). lia. }
    destruct (Stream w); cbn [fst snd handed]; split; try exact Hnew; exact Hout.
  - (* a step of a streaming goroutine *)
    destruct (streamers w !! k) as [l|]; [| apply Keep; now split].
    pose proof (loop_step_only_fire i l w) as H.
    destruct (loop_step d i l w) as [l' w']. cbn [fst snd handed] in *.
    apply Keep. eapply only_fire_trans; [exact H | now split].
Qed.

Lemma perform_all_pristine (acts : list action) :
  forall (held : list ChanID) (w : World),
  pristine held w -> fire_outside held w ->
  pristine (held ++ fst (perform_all d acts w)) (snd (perform_all d acts w)).
Proof.
  induction acts as [|a acts IH]; intros held w Hp Ho; cbn [perform_all].
  - cbn [fst snd]. now rewrite app_nil_r.
  - destruct (perform_pristine held a w Hp Ho) as [Hp1 Ho1].
    destruct (perform d a w) as [r w1]. cbn [fst snd] in *.
    specialize (IH _ _ Hp1 Ho1).
    destruct (perform_all d acts w1) as [rs w2]. cbn [fst snd] in *.
    destruct r as [ch|]; cbn [handed] in IH; [| now rewrite app_nil_r in IH].
    now rewrite <- app_assoc in IH.
Qed.

(** C10. From the state [NewDevice] leaves, after any sequence of
    operations on the device and steps of its streaming goroutines, every
    channel that [StartProducingEvents] returned as its second result is
    as [make] left it: not closed and never sent on, so that a receive on
    it cannot complete. *)
Theorem C10_done_channel_never_signalled
    (acts : list action) (streams : bool) (poolSize : nat) :
  Forall (fun ch =>
            exists c, chans (snd (perform_all d acts (NewDevice streams poolSize))) !! ch = Some c
                      /\ closed c = false /\ sent c = [] /\ recv_ready c = false)
    (fst (perform_all d acts (NewDevice streams poolSize))).
Proof.
  pose proof (perform_all_pristine acts [] (NewDevice streams poolSize)) as H.
  cbn [app] in H. unfold pristine in H.
  eapply Forall_impl; [apply H |].
  - constructor.
  - intros ch Hf. discriminate.
  - intros ch Hch. exists fresh_chan. now repeat split.
Qed.

End ChannelFacts.

(* ===================================================================== *)
(** * The listeners of a recipe *)
(* ===================================================================== *)

Import Recipe.

Section RecipeFacts.
Variable T : Trigger.

Lemma step_sequential (s s' : State T) (l : label) :
  step s l = Some s' -> sequential s -> sequential s'.
Proof.
  unfold sequential, fire_running. intros H [Hf He].
  destruct l; cbn [step] in H.
  - injection H as <-. now cbn.
  - destruct (fireTask s) as [[]|] eqn:Ht; try discriminate. cbn in Hf.
    destruct (enabled s && f); injection H as <-; cbn; rewrite ?Ht; cbn; lia.
  - destruct (fireTask s) as [[]|] eqn:Ht; try discriminate. cbn in Hf.
    destruct (doneClosed s); [| discriminate]. injection H as <-. cbn. lia.
  - destruct (eventTask s) eqn:Ht; try discriminate. cbn in He.
    destruct (negb (enabled s) || negb (triggerProcessesEvents T)).
    + injection H as <-. rewrite Ht. cbn. lia.
    + destruct (ProcessEvent T (tstate s) e) as [[] t'];
        injection H as <-; cbn; lia.
  - destruct (eventTask s) eqn:Ht; try discriminate. cbn in He.
    injection H as <-. cbn. lia.
  - destruct (fireTask s) as [[]|] eqn:Ht; try discriminate. cbn in Hf.
    injection H as <-. cbn. lia.
  - destruct (eventTask s) eqn:Ht; try discriminate. cbn in He.
    injection H as <-. cbn. lia.
Qed.

Lemma steps_sequential (ls : list label) :
  forall s s' : State T, steps s ls = Some s' -> sequential s -> sequential s'.
Proof.
  induction ls as [|l ls IH]; intros s s' H Hs; cbn [steps] in H.
  - now injection H as <-.
  - destruct (step s l) as [s1|] eqn:H1; [| discriminate].
    eapply IH; [exact H |]. eapply step_sequential; eauto.
Qed.

Lemma start_sequential (enabled0 : bool) : sequential (StartConsumingEvents T enabled0).
Proof. unfold sequential, StartConsumingEvents, fire_running. cbn. now destruct (fires T). Qed.

(** C2, as the code has it. In every state the two listeners can reach,
    each listener has at most one execution of the action in progress and
    has finished all the executions it started before: the executions of
    one listener never overlap. Nothing orders an execution of the fire
    listener against one of the event listener, so up to two executions
    of the recipe's action are in progress at a time. *)
Theorem C2_executions_sequential_per_listener
    (enabled0 : bool) (ls : list label) :
  match steps (StartConsumingEvents T enabled0) ls with
  | Some s =>
    fireStarted s = (fireFinished s + fire_running s)%nat
    /\ eventStarted s = (eventFinished s + running (eventTask s))%nat
    /\ (fire_running s <= 1)%nat
    /\ (running (eventTask s) <= 1)%nat
    /\ (executing s <= 2)%nat
  | None => True
  end.
Proof.
  destruct (steps (StartConsumingEvents T enabled0) ls) as [s|] eqn:H; [| exact I].
  destruct (steps_sequential ls _ _ H (start_sequential enabled0)) as [Hf He].
  assert (F1 : (fire_running s <= 1)%nat).
  { unfold fire_running. destruct (fireTask s) as [[]|]; simpl; lia. }
  assert (E1 : (running (eventTask s) <= 1)%nat).
  { destruct (eventTask s); simpl; lia. }
  unfold executing. repeat split; try assumption. lia.
Qed.

(** A signal received while the recipe is disabled changes nothing. *)
Lemma disabled_signal (s : State T) (l : label) :
  enabled s = false -> hears s l = true -> step s l = Some s.
Proof.
  intros He Hh. destruct l; cbn [hears] in Hh; try discriminate; cbn [step].
  - destruct (fireTask s) as [[]|]; try discriminate. now rewrite He.
  - destruct (eventTask s); try discriminate. now rewrite He.
Qed.

Lemma disabled_signals (s : State T) (ls : list label) :
  enabled s = false -> forallb (hears s) ls = true -> steps s ls = Some s.
Proof.
  intros He. induction ls as [|l ls IH]; cbn [steps forallb]; [reflexivity |].
  intros H. apply andb_prop in H as [Hl Hls].
  rewrite (disabled_signal s l He Hl). now apply IH.
Qed.

(** While the recipe is disabled no execution starts, whatever happens
    short of a call of [SetEnabled(true)]; executions in progress may
    return. *)
Lemma disabled_step_starts_nothing (s s' : State T) (l : label) :
  enabled s = false -> stays_off l = true -> step s l = Some s' ->
  enabled s' = false
  /\ fireStarted s' = fireStarted s /\ eventStarted s' = eventStarted s.
Proof.
  intros He Hl H. destruct l as [[]| | | | | |]; cbn [step] in H;
    try discriminate Hl.
  - injection H as <-. now cbn.
  - destruct (fireTask s) as [[]|]; try discriminate.
    rewrite He in H. cbn in H. now injection H as <-.
  - destruct (fireTask s) as [[]|]; try discriminate.
    destruct (doneClosed s); [| discriminate]. injection H as <-. now cbn.
  - destruct (eventTask s); try discriminate.
    rewrite He in H. cbn in H. now injection H as <-.
  - destruct (eventTask s); try discriminate. injection H as <-. now cbn.
  - destruct (fireTask s) as [[]|]; try discriminate. injection H as <-. now cbn.
  - destruct (eventTask s); try discriminate. injection H as <-. now cbn.
Qed.

Lemma disabled_steps_start_nothing (ls : list label) :
  forall s s' : State T,
  enabled s = false -> forallb stays_off ls = true -> steps s ls = Some s' ->
  enabled s' = false
  /\ fireStarted s' = fireStarted s /\ eventStarted s' = eventStarted s.
Proof.
  induction ls as [|l ls IH]; intros s s' He Hls H; cbn [steps forallb] in *.
  - now injection H as <-.
  - apply andb_prop in Hls as [Hl Hls].
    destruct (step s l) as [s1|] eqn:H1; [| discriminate].
    destruct (disabled_step_starts_nothing s s1 l He Hl H1) as (He1 & F1 & E1).
    destruct (IH s1 s' He1 Hls H) as (He2 & F2 & E2).
    repeat split; congruence.
Qed.

(** C9. [SetEnabled] writes the flag and nothing else: the listeners,
    their channels and the trigger stay as they are. After
    [SetEnabled(false)] every signal the listeners receive (fire signals
    and events, matching or not) is taken and starts no execution, leaving
    the state as it was, and no schedule without [SetEnabled(true)] starts
    one; after [SetEnabled(true)], with the same listeners, the next
    matching event and the next true fire signal start an execution
    again. *)
Theorem C9_enabled_flag_gates_execution
    (s : State T) (signals : list label) (e : Event) (t' : TState T) :
  forallb (hears s) signals = true ->
  exists s_off s_on,
    step s (SetEnabled false) = Some s_off
    /\ enabled s_off = false /\ same_listeners s s_off
    /\ steps s_off signals = Some s_off
    /\ (forall (ls : list label) (s' : State T),
          forallb stays_off ls = true -> steps s_off ls = Some s' ->
          enabled s' = false
          /\ fireStarted s' = fireStarted s /\ eventStarted s' = eventStarted s)
    /\ step s_off (SetEnabled true) = Some s_on
    /\ enabled s_on = true /\ same_listeners s s_on
    /\ (eventTask s = Listening -> triggerProcessesEvents T = true ->
        ProcessEvent T (tstate s) e = (true, t') ->
        exists s1, step s_on (Deliver e) = Some s1
                   /\ eventTask s1 = Executing
                   /\ eventStarted s1 = S (eventStarted s))
    /\ (fireTask s = Some Listening ->
        exists s2, step s_on (Fire true) = Some s2
                   /\ fireTask s2 = Some Executing
                   /\ fireStarted s2 = S (fireStarted s)).
Proof.
  intros Hs. exists (with_enabled false s), (with_enabled true s).
  split; [reflexivity |]. split; [reflexivity |].
  split; [now repeat split |].
  split; [now apply disabled_signals |].
  split.
  { intros ls s' Hls H.
    now apply (disabled_steps_start_nothing ls (with_enabled false s) s'). }
  split; [reflexivity |]. split; [reflexivity |].
  split; [now repeat split |].
  split.
  - intros Ht Hp He. cbn [step with_enabled eventTask enabled tstate].
    rewrite Ht, Hp, He. cbn. eexists. now repeat split.
  - intros Ht. cbn [step with_enabled fireTask enabled].
    rewrite Ht. cbn. eexists. now repeat split.
Qed.

End RecipeFacts.
(* ===================================================================== *)
(** * Runs of the examples *)
(* ===================================================================== *)

Section RuntimeExamples.
Import Example Demo.
Local Open Scope nat_scope.

(** The three ways a cycle ends, each with its one release: the scanner
    reaches the end of input, the first read fails, a frame panics. *)
Example cycle_at_end_of_input :
  fst (stream hub whole ready) = Returned None
  /\ count_release 0 (trace (snd (stream hub whole ready))) = 1%nat
  /\ pool (snd (stream hub whole ready)) = mkPool [1; 0]%nat.
Proof. vm_compute. repeat split. Qed.

Example cycle_first_read_fails :
  fst (stream hub dead ready) = Returned (Some ErrStream)
  /\ count_release 0 (trace (snd (stream hub dead ready))) = 1%nat
  /\ pool (snd (stream hub dead ready)) = mkPool [1; 0]%nat.
Proof. vm_compute. repeat split. Qed.

Example cycle_frame_panics :
  fst (stream hub (Scanner.mkInput [unknown_button_frame] false) ready) = Panicked
  /\ count_release 0
       (trace (snd (stream hub (Scanner.mkInput [unknown_button_frame] false) ready)))
     = 1%nat
  /\ fst (startStreaming hub [Scanner.mkInput [unknown_button_frame] false; dead; dead]
            AtStream ready) = Crashed.
Proof. vm_compute. repeat split. Qed.

(** The device is removed before the loop starts; the loop still makes its
    first attempt, logs the failure, sleeps ten seconds, makes a second
    attempt, and stands inside the loop. *)
Lemma C3_counterexample :
  removed gone = true
  /\ fst (startStreaming hub [dead; dead; dead; dead] AtStream gone) = AtLog
  /\ count_attempts (trace (snd (startStreaming hub [dead; dead; dead; dead] AtStream gone)))
     = 2%nat
  /\ count_sleeps (trace (snd (startStreaming hub [dead; dead; dead; dead] AtStream gone)))
     = 1%nat.
Proof. vm_compute. repeat split. Qed.

(** A true fire signal and a matching event, one after the other, with no
    return of the action in between: two executions of the recipe's
    action are in progress. *)
Lemma C2_counterexample :
  exists s, steps (StartConsumingEvents always true) [Fire true; Deliver press_event] = Some s
            /\ fireTask s = Some Executing
            /\ eventTask s = Executing
            /\ executing s = 2%nat.
Proof. eexists. vm_compute. repeat split. Qed.

(** A recipe whose listeners both wait: disabled, it takes two fire signals
    and two events without executing; enabled again, it executes. *)
Lemma C9_witness :
  forallb (hears (StartConsumingEvents always true))
    [Fire true; Deliver press_event; Fire false; Deliver press_event] = true
  /\ exists s_off s_on,
    step (StartConsumingEvents always true) (SetEnabled false) = Some s_off
    /\ enabled s_off = false /\ same_listeners (StartConsumingEvents always true) s_off
    /\ steps s_off [Fire true; Deliver press_event; Fire false; Deliver press_event]
       = Some s_off
    /\ (forall (ls : list label) (s' : State always),
          forallb stays_off ls = true -> steps s_off ls = Some s' ->
          enabled s' = false
          /\ fireStarted s' = fireStarted (StartConsumingEvents always true)
          /\ eventStarted s' = eventStarted (StartConsumingEvents always true))
    /\ step s_off (SetEnabled true) = Some s_on
    /\ enabled s_on = true /\ same_listeners (StartConsumingEvents always true) s_on
    /\ (eventTask (StartConsumingEvents always true) = Listening ->
        triggerProcessesEvents always = true ->
        ProcessEvent always (tstate (StartConsumingEvents always true)) press_event
        = (true, tt) ->
        exists s1, step s_on (Deliver press_event) = Some s1
                   /\ eventTask s1 = Executing
                   /\ eventStarted s1 = S (eventStarted (StartConsumingEvents always true)))
    /\ (fireTask (StartConsumingEvents always true) = Some Listening ->
        exists s2, step s_on (Fire true) = Some s2
                   /\ fireTask s2 = Some Executing
                   /\ fireStarted s2 = S (fireStarted (StartConsumingEvents always true))).
Proof.
  split; [vm_compute; reflexivity |].
  apply (C9_enabled_flag_gates_execution always (StartConsumingEvents always true)
           [Fire true; Deliver press_event; Fire false; Deliver press_event]
           press_event tt).
  vm_compute. reflexivity.
Defined.

(** Two calls of [StartProducingEvents] on a streaming hub, cycles of both
    goroutines that deliver a zone frame, and a removal: the done channels
    handed out are channels 0 and 2, and both are as [make] left them,
    while the event channel 3 carries the two events. *)
Example done_channels_stay_silent :
  let run := perform_all hub
               [ActInitConnections; ActStartProducingEvents; ActStartProducingEvents;
                ActStreamer 0 whole; ActStreamer 1 whole; ActDeleteDevice;
                ActStreamer 0 dead]
               (NewDevice true 2) in
  fst run = [0; 2]%nat
  /\ chans (snd run) !! 0%nat = Some fresh_chan
  /\ chans (snd run) !! 2%nat = Some fresh_chan
  /\ option_map (fun c => List.length (sent c)) (chans (snd run) !! 3%nat) = Some 2%nat.
Proof. vm_compute. repeat split. Qed.

End RuntimeExamples.

(* ===================================================================== *)
(** * The patterns of the parsers on well-formed frames *)
(* ===================================================================== *)

Section MatchFacts.
Import Utf8 Regexp Wire.

Lemma width_sum_byte_runes (s : string) : width_sum (byte_runes s) = String.length s.
Proof.
  rewrite (width_sum_unit _ (byte_runes_unit s)). apply byte_runes_length.
Qed.

Lemma byte_runes_cons (b : ascii) (s : string) :
  byte_runes (String b s) = (byteN b, 1%nat) :: byte_runes s.
Proof. reflexivity. Qed.

(** A greedy run that stops where the class stops, when the rest of the
    pattern matches there. *)
Lemma star_run (c : cls) (k : list (rune * nat) -> nat -> option matched)
    (pre post : list (rune * nat)) (m : matched) :
  Forall (fun rw => cls_match c (fst rw) = true) pre ->
  match post with
  | [] => True
  | rw :: _ => cls_match c (fst rw) = false
  end ->
  forall pos, k post (pos + width_sum pre)%nat = Some m ->
  star c k (pre ++ post) pos = Some m.
Proof.
  intros Hpre Hpost. induction Hpre as [|[r w] pre Hr Hpre IH]; intros pos Hk.
  - unfold width_sum in Hk. simpl in Hk. rewrite Nat.add_0_r in Hk. simpl.
    destruct post as [|[r w] post]; simpl; [exact Hk |].
    simpl in Hpost. now rewrite Hpost.
  - simpl in Hr. simpl. rewrite Hr.
    rewrite (IH (pos + w)%nat); [reflexivity |].
    unfold width_sum in *. simpl in Hk. now rewrite <- Nat.add_assoc.
Qed.

(** A greedy run that has to give back its last rune. *)
Lemma star_back_one (c : cls) (k : list (rune * nat) -> nat -> option matched)
    (pre post : list (rune * nat)) (x : rune * nat) (m : matched) :
  Forall (fun rw => cls_match c (fst rw) = true) pre ->
  cls_match c (fst x) = true ->
  match post with
  | [] => True
  | rw :: _ => cls_match c (fst rw) = false
  end ->
  forall pos,
  k post (pos + width_sum pre + snd x)%nat = None ->
  k (x :: post) (pos + width_sum pre)%nat = Some m ->
  star c k (pre ++ x :: post) pos = Some m.
Proof.
  intros Hpre Hx Hpost. induction Hpre as [|[r w] pre Hr Hpre IH]; intros pos Hn Hk.
  - unfold width_sum in *. simpl in *. rewrite Nat.add_0_r in *.
    destruct x as [rx wx]. simpl in *. rewrite Hx.
    assert (E : star c k post (pos + wx)%nat = None).
    { destruct post as [|[r w] post]; simpl; [exact Hn |]. simpl in Hpost.
      now rewrite Hpost. }
    now rewrite E.
  - simpl in Hr. simpl. rewrite Hr.
    rewrite (IH (pos + w)%nat); [reflexivity | |];
      unfold width_sum in *; simpl in *.
    + now rewrite <- (Nat.add_assoc pos w).
    + now rewrite <- (Nat.add_assoc pos w).
Qed.

Lemma exec_lits (t : string) (p : regex) (s : list (rune * nat)) :
  forall pos, exec (lits t ++ p) (byte_runes t ++ s) pos
              = exec p s (pos + String.length t)%nat.
Proof.
  induction t as [|c t IH]; intros pos; simpl.
  - now rewrite Nat.add_0_r.
  - rewrite N.eqb_refl. change (map _ (list_ascii_of_string t)) with (byte_runes t).
    rewrite IH. f_equal. lia.
Qed.

Lemma all_runes (f : ascii -> bool) (c : cls) (s : string) :
  (forall b, f b = true -> cls_match c (byteN b) = true) ->
  Str.all f s = true ->
  Forall (fun rw => cls_match c (fst rw) = true) (byte_runes s).
Proof.
  intros Hf. induction s as [|b s IH]; simpl; [constructor |].
  intros H. apply andb_prop in H as [Hb Hs]. constructor; [now apply Hf | now apply IH].
Qed.

Lemma field_byte_class (b : ascii) :
  field_byte b = true -> cls_match (NoneOf ",") (byteN b) = true.
Proof.
  unfold field_byte. intros H. apply andb_prop in H as [_ H]. simpl.
  now rewrite orb_false_r.
Qed.

Lemma tail_byte_class (b : ascii) :
  tail_byte b = true -> cls_match AnyNotNL (byteN b) = true.
Proof. unfold tail_byte. intros H. now apply andb_prop in H as [_ H]. Qed.

Lemma is_field_inv (s : string) :
  is_field s = true ->
  exists b t, s = String b t /\ field_byte b = true /\ Str.all field_byte t = true
              /\ is_ascii s = true.
Proof.
  unfold is_field. intros H. apply andb_prop in H as [Hn Ha].
  destruct s as [|b t]; [discriminate |]. exists b, t.
  simpl in Ha. apply andb_prop in Ha as [Hb Ht]. repeat split; try assumption.
  unfold is_ascii. simpl. unfold field_byte in Hb.
  apply andb_prop in Hb as [Hb _]. rewrite Hb. simpl.
  clear -Ht. induction t as [|c t IH]; simpl in *; [reflexivity |].
  apply andb_prop in Ht as [Hc Ht]. unfold field_byte in Hc.
  apply andb_prop in Hc as [Hc _]. now rewrite Hc, IH.
Qed.

Lemma is_tail_inv (s : string) :
  is_tail s = true ->
  exists b t, s = String b t /\ tail_byte b = true /\ Str.all tail_byte t = true
              /\ is_ascii s = true.
Proof.
  unfold is_tail. intros H. apply andb_prop in H as [Hn Ha].
  destruct s as [|b t]; [discriminate |]. exists b, t.
  simpl in Ha. apply andb_prop in Ha as [Hb Ht]. repeat split; try assumption.
  unfold is_ascii. simpl. unfold tail_byte in Hb.
  apply andb_prop in Hb as [Hb _]. rewrite Hb. simpl.
  clear -Ht. induction t as [|c t IH]; simpl in *; [reflexivity |].
  apply andb_prop in Ht as [Hc Ht]. unfold tail_byte in Hc.
  apply andb_prop in Hc as [Hc _]. now rewrite Hc, IH.
Qed.

(** A captured field followed by a comma. *)
Lemma exec_field (a : string) (p : regex) (s : list (rune * nat))
    (pos e : nat) (bs : list nat) :
  is_field a = true ->
  exec p s (pos + String.length a + 1)%nat = Some (e, bs) ->
  exec (Open :: Many1 (NoneOf ",") :: Close :: One (Lit ",") :: p)
       (byte_runes a ++ (44, 1%nat) :: s) pos
  = Some (e, pos :: (pos + String.length a)%nat :: bs).
Proof.
  intros Ha He. destruct (is_field_inv a Ha) as (b & t & -> & Hb & Ht & _).
  cbn [exec]. rewrite byte_runes_cons. cbn [app].
  rewrite (field_byte_class b Hb).
  rewrite (star_run (NoneOf ",") _ (byte_runes t) ((44, 1%nat) :: s)
             (e, (pos + String.length (String b t))%nat :: bs)).
  - reflexivity.
  - now apply (all_runes field_byte), Ht; apply field_byte_class.
  - reflexivity.
  - cbn [exec]. rewrite width_sum_byte_runes.
    change (cls_match (Lit ",") 44) with true. cbn iota.
    simpl String.length in *.
    replace (pos + 1 + String.length t + 1)%nat with (pos + S (String.length t) + 1)%nat by lia.
    rewrite He. simpl. do 3 f_equal. lia.
Qed.

(** The captured last field and the terminator. *)
Lemma exec_tail (c : string) (rest : list (rune * nat)) (pos : nat) :
  is_tail c = true ->
  exec [Open; Many1 AnyNotNL; Close; One (Lit Str.CR); One (Lit Str.LF)]
       (byte_runes c ++ (13, 1%nat) :: (10, 1%nat) :: rest) pos
  = Some ((pos + String.length c + 2)%nat, [pos; (pos + String.length c)%nat]).
Proof.
  intros Hc. destruct (is_tail_inv c Hc) as (b & t & -> & Hb & Ht & _).
  cbn [exec]. rewrite byte_runes_cons. cbn [app].
  rewrite (tail_byte_class b Hb).
  rewrite (star_back_one AnyNotNL _ (byte_runes t) ((10, 1%nat) :: rest) (13, 1%nat)
             ((pos + String.length (String b t) + 2)%nat,
              [(pos + String.length (String b t))%nat])).
  - reflexivity.
  - now apply (all_runes tail_byte), Ht; apply tail_byte_class.
  - reflexivity.
  - reflexivity.
  - reflexivity.
  - cbn [exec]. rewrite width_sum_byte_runes.
    change (cls_match (Lit Str.CR) 13) with true.
    change (cls_match (Lit Str.LF) 10) with true. cbn iota. simpl.
    do 2 f_equal; [lia | f_equal; lia].
Qed.

Lemma exec_fields (a b c : string) (rest : list (rune * nat)) (pos : nat) :
  is_field a = true -> is_field b = true -> is_tail c = true ->
  exec fields
       (byte_runes a ++ (44, 1%nat) :: byte_runes b ++ (44, 1%nat)
          :: byte_runes c ++ (13, 1%nat) :: (10, 1%nat) :: rest) pos
  = Some ((pos + String.length a + 1 + String.length b + 1 + String.length c + 2)%nat,
          [pos; (pos + String.length a)%nat;
           (pos + String.length a + 1)%nat;
           (pos + String.length a + 1 + String.length b)%nat;
           (pos + String.length a + 1 + String.length b + 1)%nat;
           (pos + String.length a + 1 + String.length b + 1 + String.length c)%nat]).
Proof.
  intros Ha Hb Hc. unfold fields.
  erewrite (exec_field a); [reflexivity | exact Ha |].
  erewrite (exec_field b); [reflexivity | exact Hb |].
  now rewrite (exec_tail c rest _ Hc).
Qed.

End MatchFacts.

Section FrameFacts.
Import Utf8 Regexp Wire.

Lemma slice_middle (x y z : string) :
  Str.slice (String.length x) (String.length x + String.length y) (x +:+ y +:+ z) = y.
Proof.
  unfold Str.slice. rewrite drop_append.
  replace (String.length x + String.length y - String.length x)%nat
    with (String.length y) by lia.
  apply take_append.
Qed.

Lemma slice_all (s : string) : Str.slice 0 (String.length s) s = s.
Proof. unfold Str.slice. rewrite Nat.sub_0_r. simpl. apply take_length. Qed.

Lemma is_ascii_append (a b : string) :
  is_ascii (a +:+ b) = is_ascii a && is_ascii b.
Proof. apply all_append. Qed.

Lemma frame_ascii (s : ascii) (kw a b c : string) :
  (byteN s <? 128) = true -> is_ascii kw = true ->
  is_field a = true -> is_field b = true -> is_tail c = true ->
  is_ascii (frame s kw a b c) = true.
Proof.
  intros Hs Hk Ha Hb Hc.
  destruct (is_field_inv a Ha) as (_ & _ & _ & _ & _ & Ha').
  destruct (is_field_inv b Hb) as (_ & _ & _ & _ & _ & Hb').
  destruct (is_tail_inv c Hc) as (_ & _ & _ & _ & _ & Hc').
  unfold frame. unfold is_ascii at 1. cbn [Str.all]. rewrite Hs. cbn [andb].
  fold (is_ascii (kw +:+ "," +:+ a +:+ "," +:+ b +:+ "," +:+ c +:+ Str.CRLF)).
  rewrite !is_ascii_append, Hk, Ha', Hb', Hc'. reflexivity.
Qed.

(** A pattern of the shape of [device_re] and [zone_re] on a frame built
    from its fields: the leftmost match is the whole frame, and the groups
    are the three fields. *)
Lemma frame_submatch (set kw : string) (s : ascii) (a b c : string) :
  rune_mem (byteN s) set = true -> (byteN s <? 128) = true ->
  is_ascii kw = true ->
  is_field a = true -> is_field b = true -> is_tail c = true ->
  FindStringSubmatch (One (OneOf set) :: lits (kw +:+ ",") ++ fields) (frame s kw a b c)
  = Some [frame s kw a b c; a; b; c].
Proof.
  intros Hs Hs8 Hk Ha Hb Hc.
  unfold FindStringSubmatch, FindStringSubmatchIndex.
  rewrite (decode_ascii _ (frame_ascii s kw a b c Hs8 Hk Ha Hb Hc)).
  assert (E : byte_runes (frame s kw a b c)
              = (byteN s, 1%nat)
                :: byte_runes (kw +:+ ",")
                   ++ (byte_runes a ++ (44, 1%nat) :: byte_runes b ++ (44, 1%nat)
                         :: byte_runes c ++ (13, 1%nat) :: (10, 1%nat) :: [])).
  { unfold frame. rewrite byte_runes_cons. f_equal.
    rewrite !byte_runes_append. rewrite <- !app_assoc. reflexivity. }
  rewrite E. clear E.
  destruct (byte_runes (kw +:+ ",") ++ _) as [|x xs] eqn:Hx at 1.
  { destruct kw; discriminate. }
  rewrite <- Hx. clear Hx x xs.
  unfold find at 1.
  assert (X : exec (One (OneOf set) :: lits (kw +:+ ",") ++ fields)
                ((byteN s, 1%nat)
                 :: byte_runes (kw +:+ ",")
                    ++ (byte_runes a ++ (44, 1%nat) :: byte_runes b ++ (44, 1%nat)
                          :: byte_runes c ++ (13, 1%nat) :: (10, 1%nat) :: [])) 0
              = Some ((1 + String.length (kw +:+ ",") + String.length a + 1
                       + String.length b + 1 + String.length c + 2)%nat,
                      [(1 + String.length (kw +:+ ","))%nat;
                       (1 + String.length (kw +:+ ",") + String.length a)%nat;
                       (1 + String.length (kw +:+ ",") + String.length a + 1)%nat;
                       (1 + String.length (kw +:+ ",") + String.length a + 1
                        + String.length b)%nat;
                       (1 + String.length (kw +:+ ",") + String.length a + 1
                        + String.length b + 1)%nat;
                       (1 + String.length (kw +:+ ",") + String.length a + 1
                        + String.length b + 1 + String.length c)%nat])).
  { cbn [exec]. cbn [cls_match]. rewrite Hs. rewrite exec_lits.
    now rewrite (exec_fields a b c [] _ Ha Hb Hc). }
  cbn [find]. rewrite X. cbn [pairs]. f_equal.
  set (pre := String s (kw +:+ ",")).
  assert (Lp : String.length pre = (1 + String.length (kw +:+ ","))%nat) by reflexivity.
  rewrite <- !Lp.
  assert (F : frame s kw a b c
              = pre +:+ a +:+ "," +:+ b +:+ "," +:+ c +:+ Str.CRLF).
  { unfold frame, pre. simpl. now rewrite !append_assoc. }
  f_equal; [| f_equal; [| f_equal; [| f_equal]]].
  - replace (String.length pre + String.length a + 1 + String.length b + 1
             + String.length c + 2)%nat with (String.length (frame s kw a b c)).
    + apply slice_all.
    + rewrite F, !length_append. simpl. lia.
  - rewrite F. apply (slice_middle pre a).
  - rewrite F.
    replace (pre +:+ a +:+ "," +:+ b +:+ "," +:+ c +:+ Str.CRLF)
      with ((pre +:+ a +:+ ",") +:+ b +:+ ("," +:+ c +:+ Str.CRLF))
      by now rewrite !append_assoc.
    replace (String.length pre + String.length a + 1)%nat
      with (String.length (pre +:+ a +:+ ","))
      by (rewrite !length_append; simpl; lia).
    apply slice_middle.
  - rewrite F.
    replace (pre +:+ a +:+ "," +:+ b +:+ "," +:+ c +:+ Str.CRLF)
      with ((pre +:+ a +:+ "," +:+ b +:+ ",") +:+ c +:+ Str.CRLF)
      by now rewrite !append_assoc.
    replace (String.length pre + String.length a + 1 + String.length b + 1)%nat
      with (String.length (pre +:+ a +:+ "," +:+ b +:+ ","))
      by (rewrite !length_append; simpl; lia).
    apply slice_middle.
Qed.

End FrameFacts.

(* ===================================================================== *)
(** * The parser on well-formed frames *)
(* ===================================================================== *)

Section ParseFacts.
Context `{SC : Strconv}.
Import Utf8 Regexp Wire.

(** X2. Both patterns of the parsers cut a well-formed frame at its commas:
    the groups are the three fields, whatever the sentinel of the
    pattern's class. *)
Theorem patterns_extract_the_fields (s : ascii) (a b c : string) :
  is_field a = true -> is_field b = true -> is_tail c = true ->
  (rune_mem (byteN s) "~|#" = true ->
   FindStringSubmatch device_re (frame s "DEVICE" a b c)
   = Some [frame s "DEVICE" a b c; a; b; c])
  /\ (rune_mem (byteN s) "~|?" = true ->
      FindStringSubmatch zone_re (frame s "OUTPUT" a b c)
      = Some [frame s "OUTPUT" a b c; a; b; c]).
Proof.
  intros Ha Hb Hc. split; intros Hs.
  - apply (frame_submatch "~|#" "DEVICE" s a b c); auto.
    cbn [rune_mem] in Hs. repeat (apply orb_prop in Hs as [Hs | Hs]);
      try discriminate; apply N.eqb_eq in Hs; now rewrite Hs.
  - apply (frame_submatch "~|?" "OUTPUT" s a b c); auto.
    cbn [rune_mem] in Hs. repeat (apply orb_prop in Hs as [Hs | Hs]);
      try discriminate; apply N.eqb_eq in Hs; now rewrite Hs.
Qed.

Lemma device_frame_groups (s : ascii) (a b c : string) :
  s = "~"%char \/ s = "#"%char ->
  is_field a = true -> is_field b = true -> is_tail c = true ->
  FindStringSubmatch device_re (frame s "DEVICE" a b c)
  = Some [frame s "DEVICE" a b c; a; b; c].
Proof.
  intros Hs Ha Hb Hc.
  apply (frame_submatch "~|#" "DEVICE" s a b c); auto;
    destruct Hs as [-> | ->]; reflexivity.
Qed.

Lemma zone_frame_groups (a b c : string) :
  is_field a = true -> is_field b = true -> is_tail c = true ->
  FindStringSubmatch zone_re (frame "~" "OUTPUT" a b c)
  = Some [frame "~" "OUTPUT" a b c; a; b; c].
Proof. intros Ha Hb Hc. now apply (frame_submatch "~|?" "OUTPUT" "~" a b c). Qed.

(** X3. What the parser makes of a well-formed device frame, by the two
    table look-ups and the action code. *)
Theorem device_frame_outcome (d : Device.t) (s : ascii) (dev comp act : string) :
  s = "~"%char \/ s = "#"%char ->
  is_field dev = true -> is_field comp = true -> is_tail act = true ->
  parseCommandString d (frame s "DEVICE" dev comp act)
  = match Device.Devices d !! dev with
    | None => Ok (None, SrcNil)
    | Some sd =>
      if String.eqb act "3" || String.eqb act "4" then
        match Device.Buttons sd !! comp with
        | None => Panic
        | Some b =>
          c ← buildCommand ((if String.eqb act "3" then PressButton else ReleaseButton) d sd b);
          mret (c, SrcButton (Some b))
        end
      else Ok (None, SrcButton None)
    end.
Proof.
  intros Hs Ha Hb Hc.
  assert (Hp : parseCommandString d (frame s "DEVICE" dev comp act)
               = parseDeviceCommand d (frame s "DEVICE" dev comp act)).
  { destruct Hs as [-> | ->]; reflexivity. }
  rewrite Hp. unfold parseDeviceCommand.
  rewrite (device_frame_groups s dev comp act Hs Ha Hb Hc).
  destruct (Device.Devices d !! dev) as [sd|]; [| reflexivity].
  destruct (String.eqb act "3") eqn:E3.
  - cbn [orb]. now destruct (Device.Buttons sd !! comp).
  - cbn [orb]. destruct (String.eqb act "4") eqn:E4.
    + now destruct (Device.Buttons sd !! comp).
    + reflexivity.
Qed.

(** X4. What the parser makes of a well-formed [~OUTPUT] frame, by the
    number, the zone table and the operation code. *)
Theorem zone_frame_outcome (d : Device.t) (id op num : string) :
  is_field id = true -> is_field op = true -> is_tail num = true ->
  parseCommandString d (frame "~" "OUTPUT" id op num)
  = match ParseFloat num with
    | None => Ok (None, SrcNil)
    | Some x =>
      match Device.Zones d !! id with
      | None => Ok (None, SrcNil)
      | Some z =>
        if String.eqb op "1"
        then c ← buildCommand (SetZoneLevel d z x); mret (c, SrcZone z)
        else Ok (None, SrcZone z)
      end
    end.
Proof.
  intros Ha Hb Hc.
  change (parseCommandString d (frame "~" "OUTPUT" id op num))
    with (parseZoneCommand d (frame "~" "OUTPUT" id op num)).
  unfold parseZoneCommand. rewrite (zone_frame_groups id op num Ha Hb Hc).
  destruct (ParseFloat num) as [x|]; [| reflexivity].
  destruct (Device.Zones d !! id) as [z|]; [| reflexivity].
  now destruct (String.eqb op "1").
Qed.

Lemma parseZoneCommand_no_panic (d : Device.t) (cmd : string) :
  parseZoneCommand d cmd <> Panic.
Proof.
  unfold parseZoneCommand.
  destruct (FindStringSubmatch zone_re cmd) as [[|w [|a [|b [|c [|x l]]]]]|];
    try discriminate.
  destruct (ParseFloat c); [| discriminate].
  destruct (Device.Zones d !! a); [| discriminate].
  now destruct (String.eqb b "1").
Qed.

Lemma device_prefix_not_output (cmd : string) :
  Str.HasPrefix cmd "~DEVICE" || Str.HasPrefix cmd "#DEVICE" = true ->
  Str.HasPrefix cmd "~OUTPUT" || Str.HasPrefix cmd "#OUTPUT" = false.
Proof.
  destruct cmd as [|c0 [|c1 cmd]]; cbn [Str.HasPrefix].
  - discriminate.
  - destruct (ascii_dec "~" c0), (ascii_dec "#" c0); discriminate.
  - destruct (ascii_dec "~" c0), (ascii_dec "#" c0); cbn [orb];
      destruct (ascii_dec "D" c1) as [<-|]; cbn [orb]; try discriminate;
      intros _; destruct (ascii_dec "O" "D"); try discriminate; reflexivity.
Qed.

(** X5. The parser panics on exactly one kind of text: a device frame
    whose sub-device is in the table, whose action is a press or a
    release, and whose button is not in the sub-device's table. *)
Theorem parser_panics_only_on_unknown_button (d : Device.t) (cmd : string) :
  parseCommandString d cmd = Panic
  <-> (Str.HasPrefix cmd "~DEVICE" || Str.HasPrefix cmd "#DEVICE" = true
       /\ exists (whole dev comp act : string) (sd : Device.t),
            FindStringSubmatch device_re cmd = Some [whole; dev; comp; act]
            /\ Device.Devices d !! dev = Some sd
            /\ (act = "3" \/ act = "4")
            /\ Device.Buttons sd !! comp = None).
Proof.
  unfold parseCommandString. split.
  - destruct (Str.HasPrefix cmd "~OUTPUT" || Str.HasPrefix cmd "#OUTPUT") eqn:Ho.
    { intros H. now apply parseZoneCommand_no_panic in H. }
    destruct (Str.HasPrefix cmd "~DEVICE" || Str.HasPrefix cmd "#DEVICE");
      [| discriminate].
    intros H. split; [reflexivity |]. unfold parseDeviceCommand in H.
    destruct (FindStringSubmatch device_re cmd) as [[|w [|a [|b [|c [|x l]]]]]|];
      try discriminate.
    destruct (Device.Devices d !! a) as [sd|] eqn:Hd; [| discriminate].
    exists w, a, b, c, sd. split; [reflexivity |]. split; [exact Hd |].
    destruct (String.eqb c "3") eqn:E3.
    + apply String.eqb_eq in E3. split; [now left |].
      destruct (Device.Buttons sd !! b); [discriminate | reflexivity].
    + destruct (String.eqb c "4") eqn:E4; [| discriminate].
      apply String.eqb_eq in E4. split; [now right |].
      destruct (Device.Buttons sd !! b); [discriminate | reflexivity].
  - intros [Hp (w & a & b & c & sd & Hm & Hd & Hc & Hb)].
    rewrite (device_prefix_not_output cmd Hp), Hp. unfold parseDeviceCommand. rewrite Hm, Hd.
    destruct Hc as [-> | ->]; simpl; now rewrite Hb.
Qed.


End ParseFacts.

(* ===================================================================== *)
(** * Delivery of events *)
(* ===================================================================== *)

Section DeliveryFacts.
Context `{SC : Strconv} `{RA : Utf8.RuneAlloc}.
Variable d : Device.t.
Import Utf8 Scanner Delivery.

Lemma chan_send_open (ch : ChanID) (v : chanValue) (w : World) (c : chanState) :
  chans w !! ch = Some c -> closed c = false ->
  fst (chan_send ch v w) = Ok tt
  /\ evpFire (snd (chan_send ch v w)) = evpFire w
  /\ chans (snd (chan_send ch v w)) !! ch = Some (extended c [v])
  /\ (forall ch', ch' <> ch ->
        chans (snd (chan_send ch v w)) !! ch' = chans w !! ch').
Proof.
  intros Hc Ho. unfold chan_send. rewrite Hc, Ho. cbn [fst snd].
  split; [reflexivity |]. split; [reflexivity |].
  cbn [chans note set_chans].
  assert (Hlt : (ch < List.length (chans w))%nat) by (eapply lookup_lt_Some; eauto).
  split.
  - now rewrite list_lookup_insert_eq by exact Hlt.
  - intros ch' Hne. now rewrite list_lookup_insert_ne by auto.
Qed.

Lemma onFrames_events (toks : list string) :
  forall (w : World) (ch : ChanID) (c : chanState),
  evpFire w = Some ch -> chans w !! ch = Some c -> closed c = false ->
  fst (onFrames d toks w) = (if snd (events_of d toks) then Panic else Ok tt)
  /\ evpFire (snd (onFrames d toks w)) = evpFire w
  /\ chans (snd (onFrames d toks w)) !! ch
     = Some (extended c (map VEvent (fst (events_of d toks))))
  /\ (forall ch', ch' <> ch ->
        chans (snd (onFrames d toks w)) !! ch' = chans w !! ch').
Proof.
  induction toks as [|orig toks IH]; intros w ch c Hf Hc Ho.
  - cbn [onFrames events_of fst snd map]. unfold extended. rewrite app_nil_r.
    repeat split; auto. rewrite Hc. destruct c as [cl st]. cbn in *. now subst cl.
  - cbn [onFrames events_of]. unfold onFrame. rewrite Hf.
    destruct (parseCommandString d orig) as [[[cmd|] src]|].
    + destruct (chan_send_open ch (VEvent (NewEvent d cmd orig ETUnknown src)) w c Hc Ho)
        as (Hr & Hf1 & Hc1 & Hother1).
      destruct (chan_send ch (VEvent (NewEvent d cmd orig ETUnknown src)) w)
        as [r w1]. cbn [fst snd] in *. subst r.
      rewrite Hf in Hf1.
      destruct (IH w1 ch (extended c [VEvent (NewEvent d cmd orig ETUnknown src)])
                  Hf1 Hc1 eq_refl) as (Hr2 & Hf2 & Hc2 & Hother2).
      destruct (events_of d toks) as [es p]. cbn [fst snd map] in *.
      split; [exact Hr2 |]. split; [now rewrite Hf2, Hf1 |].
      split.
      * rewrite Hc2. unfold extended. cbn [sent]. now rewrite <- app_assoc.
      * intros ch' Hne. now rewrite Hother2, Hother1.
    + destruct (IH w ch c Hf Hc Ho) as (A & B & C & D). rewrite Hf in B. auto.
    + cbn [fst snd map]. unfold extended. rewrite app_nil_r.
      repeat split; auto. rewrite Hc. destruct c as [cl st]. cbn in *. now subst cl.
Qed.

(** X7. The scan loop sends one event for every token that parses to a
    command, in token order and with the token as its raw text, adds
    nothing else to the event channel, touches no other channel, and stops
    at the first token on which the parser panics. *)
Theorem events_sent_in_token_order
    (toks : list string) (w : World) (ch : ChanID) (c : chanState) :
  evpFire w = Some ch -> chans w !! ch = Some c -> closed c = false ->
  fst (onFrames d toks w) = (if snd (events_of d toks) then Panic else Ok tt)
  /\ chans (snd (onFrames d toks w)) !! ch
     = Some (extended c (map VEvent (fst (events_of d toks))))
  /\ Forall (fun e => EvDevice e = d /\ In (EvOrig e) toks
                      /\ parseCommandString d (EvOrig e)
                         = Ok (Some (EvCommand e), EvSource e))
       (fst (events_of d toks))
  /\ (forall ch', ch' <> ch ->
        chans (snd (onFrames d toks w)) !! ch' = chans w !! ch').
Proof.
  intros Hf Hc Ho.
  destruct (onFrames_events toks w ch c Hf Hc Ho) as (H1 & _ & H3 & H4).
  split; [exact H1 |]. split; [exact H3 |]. split; [| exact H4].
  clear. induction toks as [|orig toks IH]; cbn [events_of fst]; [constructor |].
  destruct (parseCommandString d orig) as [[[cmd|] src]|] eqn:Hp.
  - destruct (events_of d toks) as [es p]. cbn [fst] in *. constructor.
    + cbn. repeat split; auto.
    + eapply Forall_impl; [exact IH |]. intros e (He1 & He2 & He3).
      repeat split; auto. now right.
  - eapply Forall_impl; [exact IH |]. intros e (He1 & He2 & He3).
    repeat split; auto. now right.
  - constructor.
Qed.


Lemma perform_silent (a : action) (w : World) :
  Stream w = false -> streamers w = [] ->
  Stream (snd (perform d a w)) = false
  /\ streamers (snd (perform d a w)) = []
  /\ exists k, chans (snd (perform d a w)) = chans w ++ repeat fresh_chan k.
Proof.
  intros Hs Hl. destruct a; cbn [perform snd].
  - repeat split; auto. exists 0%nat. simpl. now rewrite app_nil_r.
  - unfold Connect. destruct (Pool_Get (pool w)) as [c p]. cbn [snd].
    repeat split; auto. exists 0%nat. simpl. now rewrite app_nil_r.
  - repeat split; auto. exists 0%nat. simpl. now rewrite app_nil_r.
  - unfold StartProducingEvents, make_chan. cbn. rewrite Hs. cbn.
    repeat split; auto. exists 2%nat. now rewrite <- app_assoc.
  - repeat split; auto. exists 0%nat. simpl. now rewrite app_nil_r.
  - rewrite Hl. cbn. repeat split; auto. exists 0%nat. simpl. now rewrite app_nil_r.
  - repeat split; auto. exists 0%nat. simpl. now rewrite app_nil_r.
Qed.

(** X9. A device whose connection is not set to stream never produces an
    event: whatever is called on it, no streaming goroutine exists, and
    its channels are those it had, untouched, followed by channels as
    [make] leaves them. *)
Theorem no_stream_no_events (acts : list action) (w : World) :
  Stream w = false -> streamers w = [] ->
  streamers (snd (perform_all d acts w)) = []
  /\ exists k, chans (snd (perform_all d acts w)) = chans w ++ repeat fresh_chan k.
Proof.
  revert w. induction acts as [|a acts IH]; intros w Hs Hl; cbn [perform_all].
  - split; [exact Hl |]. exists 0%nat. simpl. now rewrite app_nil_r.
  - destruct (perform_silent a w Hs Hl) as (Hs1 & Hl1 & k1 & E1).
    destruct (perform d a w) as [r w1]. cbn [snd] in *.
    destruct (IH w1 Hs1 Hl1) as (Hl2 & k2 & E2).
    destruct (perform_all d acts w1) as [rs w2]. cbn [snd] in *.
    split; [exact Hl2 |]. exists (k1 + k2)%nat.
    now rewrite E2, E1, <- app_assoc, repeat_app.
Qed.

End DeliveryFacts.

(* ===================================================================== *)
(** * Recipes: stopping, trigger modes, errors of the action *)
(* ===================================================================== *)

Section RecipeStopFacts.
Variable T : Trigger.
Import Quiet.

Lemma start_in_order (enabled0 : bool) : in_order (StartConsumingEvents T enabled0).
Proof.
  unfold in_order, StartConsumingEvents. cbn.
  repeat split; try discriminate; destruct (fires T); try discriminate; auto.
Qed.

Lemma step_in_order (s s' : State T) (l : label) :
  in_order s -> step s l = Some s' -> in_order s'.
Proof.
  unfold in_order. intros (H1 & H2 & H3 & H4) Hs.
  destruct l as [b|f| |e| |err|err]; cbn [step] in Hs;
    repeat match type of Hs with
           | context [match ?x with _ => _ end] => destruct x eqn:?; try discriminate
           end;
    injection Hs as <-; cbn in *; intuition (try congruence).
Qed.

Lemma steps_in_order (ls : list label) :
  forall s s' : State T, in_order s -> steps s ls = Some s' -> in_order s'.
Proof.
  induction ls as [|l ls IH]; intros s s' Hi Hs; cbn [steps] in Hs.
  - now injection Hs as <-.
  - destruct (step s l) as [s1|] eqn:E; [| discriminate].
    eapply IH; [| exact Hs]. eapply step_in_order; eauto.
Qed.

(** X10. Over every schedule of a started recipe: [done] and
    [triggerDone] are closed together, exactly when the event listener has
    left its loop; the fire listener leaves its loop only after the event
    listener has; and a fire listener exists exactly when the trigger gave
    a fire channel. *)
Theorem listeners_stop_in_order (enabled0 : bool) (ls : list label) (s : State T) :
  steps (StartConsumingEvents T enabled0) ls = Some s ->
  triggerDoneClosed s = doneClosed s
  /\ (doneClosed s = true <-> eventTask s = Exited)
  /\ (fireTask s = Some Exited -> eventTask s = Exited)
  /\ (fireTask s = None <-> fires T = false).
Proof.
  intros H. exact (steps_in_order ls _ s (start_in_order enabled0) H).
Qed.

(** X11. A started recipe can always be stopped: wherever a schedule has
    led, letting the running actions return and closing the sink makes
    both listeners leave their loops, with both channels closed and
    without another execution of the action. *)
Theorem recipe_can_be_stopped (enabled0 : bool) (ls : list label) (s : State T) :
  steps (StartConsumingEvents T enabled0) ls = Some s ->
  forallb winds_down (wind_down s) = true
  /\ exists s', steps s (wind_down s) = Some s'
       /\ eventTask s' = Exited
       /\ (fireTask s' = None \/ fireTask s' = Some Exited)
       /\ doneClosed s' = true /\ triggerDoneClosed s' = true
       /\ fireStarted s' = fireStarted s /\ eventStarted s' = eventStarted s.
Proof.
  intros H. pose proof (steps_in_order ls _ s (start_in_order enabled0) H) as Hi.
  clear H. unfold in_order in Hi. destruct Hi as (H1 & H2 & H3 & H4).
  destruct s as [en ts ft et dc tdc fs ff es ef fl]. cbn in *. subst tdc.
  unfold wind_down. cbn [eventTask fireTask].
  destruct et.
  - destruct ft as [[| |]|]; (split; [reflexivity |]); eexists; cbn;
      (split; [reflexivity |]); cbn; auto 10.
  - destruct ft as [[| |]|]; (split; [reflexivity |]); eexists; cbn;
      (split; [reflexivity |]); cbn; auto 10.
  - assert (dc = true) as -> by now apply H2.
    destruct ft as [[| |]|]; (split; [reflexivity |]); eexists; cbn;
      (split; [reflexivity |]); cbn; auto 10.
Qed.

Lemma step_by_mode (s s' : State T) (l : label) :
  by_mode s -> step s l = Some s' -> by_mode s'.
Proof.
  unfold by_mode. intros [H1 H2] Hs.
  destruct (triggerProcessesEvents T) eqn:Et; destruct (fires T) eqn:Ef;
  destruct l as [b|f| |e| |err|err]; cbn [step] in Hs; rewrite ?Et in Hs;
    rewrite ?orb_true_r in Hs;
    repeat match type of Hs with
           | context [match ?x with _ => _ end] => destruct x eqn:?; try discriminate
           end;
    injection Hs as <-; cbn in *; intuition (try congruence).
Qed.

(** X12. The two results of [Trigger.Init] decide what a recipe can do.
    With a trigger that does not process events, no event ever starts the
    action and [ProcessEvent] is never called; with a trigger that gave no
    fire channel there is no fire listener and nothing is executed for a
    fire signal. *)
Theorem trigger_init_decides (enabled0 : bool) (ls : list label) (s : State T) :
  steps (StartConsumingEvents T enabled0) ls = Some s ->
  (triggerProcessesEvents T = false ->
   eventStarted s = 0%nat /\ tstate s = initial T /\ eventTask s <> Executing)
  /\ (fires T = false -> fireStarted s = 0%nat /\ fireTask s = None).
Proof.
  assert (H0 : by_mode (StartConsumingEvents T enabled0)).
  { unfold by_mode, StartConsumingEvents. cbn. split.
    - intros _. repeat split. discriminate.
    - intros ->. now split. }
  revert H0. generalize (StartConsumingEvents T enabled0).
  induction ls as [|l ls IH]; intros s0 H0 Hs; cbn [steps] in Hs.
  - now injection Hs as <-.
  - destruct (step s0 l) as [s1|] eqn:E; [| discriminate].
    eapply IH; [| exact Hs]. eapply step_by_mode; eauto.
Qed.

Lemma step_same_but_log (a b a' : State T) (l : label) :
  same_but_log a b -> step a l = Some a' ->
  exists b', step b (quiet l) = Some b' /\ same_but_log a' b'
             /\ failures b' = failures b /\ (failures a <= failures a')%nat.
Proof.
  unfold same_but_log.
  destruct a as [en ts ft et dc tdc fs ff es ef fl].
  destruct b as [en' ts' ft' et' dc' tdc' fs' ff' es' ef' fl'].
  cbn. intros (-> & -> & -> & -> & -> & -> & -> & -> & -> & ->) Hs.
  destruct l as [x|f| |e| |err|err]; cbn [step quiet] in *; cbn in *;
    repeat match type of Hs with
           | context [match ?x with _ => _ end] => destruct x eqn:?; try discriminate
           end;
    injection Hs as <-; eexists; (split; [reflexivity |]); cbn;
    repeat split; auto; unfold logged; try destruct err; lia.
Qed.

(** X13. An error of the action is logged and changes nothing else: the
    schedule in which every execution returns without an error is
    possible as well, leads to the same listeners, channels, trigger state
    and counts of executions, and logs nothing. *)
Theorem action_errors_are_only_logged (s s1 : State T) (ls : list label) :
  steps s ls = Some s1 ->
  exists s2, steps s (map quiet ls) = Some s2
             /\ same_but_log s1 s2
             /\ failures s2 = failures s
             /\ (failures s <= failures s1)%nat.
Proof.
  assert (G : forall ls (a b a1 : State T), same_but_log a b -> steps a ls = Some a1 ->
              exists b1, steps b (map quiet ls) = Some b1 /\ same_but_log a1 b1
                         /\ failures b1 = failures b /\ (failures a <= failures a1)%nat).
  { clear. induction ls as [|l ls IH]; intros a b a1 Hab Hs; cbn [steps map] in *.
    - injection Hs as <-. exists b. auto.
    - destruct (step a l) as [a'|] eqn:E; [| discriminate].
      destruct (step_same_but_log a b a' l Hab E) as (b' & Eb & Hab' & Hf & Hle).
      rewrite Eb. destruct (IH a' b' a1 Hab' Hs) as (b1 & Eb1 & Hab1 & Hf1 & Hle1).
      exists b1. repeat split; auto; try apply Hab1; lia. }
  intros H. apply (G ls s s s1); [| exact H].
  unfold same_but_log. repeat split.
Qed.

End RecipeStopFacts.

(* ===================================================================== *)
(** * Duplicate devices *)
(* ===================================================================== *)

Section SystemFacts.
Import System.




(** X15. With two devices of one address in the table the answer depends
    on the order of the visit: the first one met decides, so a duplicate
    is reported or not according to which of the two comes first. *)
Theorem IsDupeDevice_depends_on_order (x y1 y2 : Device) :
  Address y1 = Address x -> Address y2 = Address x ->
  Hub y1 = Hub x -> Hub y2 <> Hub x ->
  IsDupeDevice [y1; y2] x = (Some y1, true)
  /\ snd (IsDupeDevice [y2; y1] x) = false.
Proof.
  intros A1 A2 H1 H2. cbn [IsDupeDevice]. rewrite A1, A2, String.eqb_refl.
  unfold verdict. rewrite H1. split.
  - destruct (Hub x); [now rewrite String.eqb_refl | reflexivity].
  - destruct (Hub x) as [hx|], (Hub y2) as [h2|]; cbn; try reflexivity.
    + apply String.eqb_neq. intros ->. now elim H2.
    + now elim H2.
Qed.

End SystemFacts.

(* ===================================================================== *)
(** * Runs of the further examples *)
(* ===================================================================== *)

Section CoverageExamples.
Import Example Demo Wire Delivery Quiet System.
Local Open Scope nat_scope.

(** The press frame of the keypad and the zone frame, cut at their
    commas. *)
Lemma patterns_extract_the_fields_witness :
  is_field "9" = true /\ is_field "3" = true /\ is_tail "3" = true
  /\ ((Regexp.rune_mem (Utf8.byteN "~") "~|#" = true ->
       Regexp.FindStringSubmatch Regexp.device_re (frame "~" "DEVICE" "9" "3" "3")
       = Some [frame "~" "DEVICE" "9" "3" "3"; "9"; "3"; "3"])
      /\ (Regexp.rune_mem (Utf8.byteN "~") "~|?" = true ->
          Regexp.FindStringSubmatch Regexp.zone_re (frame "~" "OUTPUT" "9" "3" "3")
          = Some [frame "~" "OUTPUT" "9" "3" "3"; "9"; "3"; "3"])).
Proof.
  split; [reflexivity |]. split; [reflexivity |]. split; [reflexivity |].
  apply (patterns_extract_the_fields "~" "9" "3" "3"); reflexivity.
Defined.

(** The press of button 3 of the keypad, as the hub parses it. *)
Lemma device_frame_outcome_witness :
  frame "~" "DEVICE" "9" "3" "3" = press_frame
  /\ parseCommandString hub (frame "~" "DEVICE" "9" "3" "3")
     = match Device.Devices hub !! "9" with
       | None => Ok (None, SrcNil)
       | Some sd =>
         if String.eqb "3" "3" || String.eqb "3" "4" then
           match Device.Buttons sd !! "3" with
           | None => Panic
           | Some b =>
             c ← buildCommand
                   ((if String.eqb "3" "3" then PressButton else ReleaseButton) hub sd b);
             mret (c, SrcButton (Some b))
           end
         else Ok (None, SrcButton None)
       end.
Proof.
  split; [reflexivity |].
  apply (device_frame_outcome hub "~" "9" "3" "3"); [now left | | |]; reflexivity.
Defined.

(** Zone 12 set to 55.00, as the hub parses it. *)
Lemma zone_frame_outcome_witness :
  frame "~" "OUTPUT" "12" "1" "55.00" = zone_frame
  /\ parseCommandString hub (frame "~" "OUTPUT" "12" "1" "55.00")
     = match ParseFloat "55.00" with
       | None => Ok (None, SrcNil)
       | Some x =>
         match Device.Zones hub !! "12" with
         | None => Ok (None, SrcNil)
         | Some z =>
           if String.eqb "1" "1"
           then c ← buildCommand (SetZoneLevel hub z x); mret (c, SrcZone z)
           else Ok (None, SrcZone z)
         end
       end.
Proof.
  split; [reflexivity |].
  apply (zone_frame_outcome hub "12" "1" "55.00"); reflexivity.
Defined.


(** Three tokens on the ready hub: the zone frame and the press frame
    become events, the frame with the unknown operation does not. *)
Lemma events_sent_in_token_order_witness :
  List.length (fst (events_of hub [zone_frame; unknown_op_frame; press_frame])) = 2
  /\ (fst (onFrames hub [zone_frame; unknown_op_frame; press_frame] ready)
      = (if snd (events_of hub [zone_frame; unknown_op_frame; press_frame])
         then Panic else Ok tt)
      /\ chans (snd (onFrames hub [zone_frame; unknown_op_frame; press_frame] ready)) !! 1
         = Some (extended fresh_chan
                   (map VEvent
                      (fst (events_of hub [zone_frame; unknown_op_frame; press_frame]))))
      /\ Forall (fun e => EvDevice e = hub
                          /\ In (EvOrig e) [zone_frame; unknown_op_frame; press_frame]
                          /\ parseCommandString hub (EvOrig e)
                             = Ok (Some (EvCommand e), EvSource e))
           (fst (events_of hub [zone_frame; unknown_op_frame; press_frame]))
      /\ (forall ch', ch' <> 1 ->
            chans (snd (onFrames hub [zone_frame; unknown_op_frame; press_frame] ready)) !! ch'
            = chans ready !! ch')).
Proof.
  split; [vm_compute; reflexivity |].
  apply (events_sent_in_token_order hub [zone_frame; unknown_op_frame; press_frame]
           ready 1 fresh_chan); reflexivity.
Defined.


(** A hub that does not stream: connections, two calls of
    [StartProducingEvents], steps of goroutines that do not exist. *)
Lemma no_stream_no_events_witness :
  Stream (NewDevice false 2) = false
  /\ streamers (NewDevice false 2) = []
  /\ (streamers (snd (perform_all hub
                        [ActInitConnections; ActStartProducingEvents;
                         ActStreamer 0 whole; ActStartProducingEvents; ActStreamer 1 whole]
                        (NewDevice false 2))) = []
      /\ exists k,
           chans (snd (perform_all hub
                         [ActInitConnections; ActStartProducingEvents;
                          ActStreamer 0 whole; ActStartProducingEvents; ActStreamer 1 whole]
                         (NewDevice false 2)))
           = chans (NewDevice false 2) ++ repeat fresh_chan k).
Proof.
  split; [reflexivity |]. split; [reflexivity |].
  apply (no_stream_no_events hub
           [ActInitConnections; ActStartProducingEvents;
            ActStreamer 0 whole; ActStartProducingEvents; ActStreamer 1 whole]
           (NewDevice false 2)); reflexivity.
Defined.

(** A recipe after a fire signal, an event and the closing of the sink
    while the fire listener still executes. *)
Lemma listeners_stop_in_order_witness :
  exists s,
    steps (StartConsumingEvents always true)
      [Fire true; Deliver press_event; EventActionReturns false; SinkClosed] = Some s
    /\ eventTask s = Exited /\ fireTask s = Some Executing
    /\ (triggerDoneClosed s = doneClosed s
        /\ (doneClosed s = true <-> eventTask s = Exited)
        /\ (fireTask s = Some Exited -> eventTask s = Exited)
        /\ (fireTask s = None <-> fires always = false)).
Proof.
  eexists. split; [vm_compute; reflexivity |].
  split; [reflexivity |]. split; [reflexivity |].
  apply (listeners_stop_in_order always true
           [Fire true; Deliver press_event; EventActionReturns false; SinkClosed]).
  vm_compute. reflexivity.
Defined.

(** A recipe with both listeners inside the action is wound down in four
    steps. *)
Lemma recipe_can_be_stopped_witness :
  exists s,
    steps (StartConsumingEvents always true) [Fire true; Deliver press_event] = Some s
    /\ wind_down s = [EventActionReturns false; SinkClosed; FireActionReturns false; DoneClosed]
    /\ (forallb winds_down (wind_down s) = true
        /\ exists s', steps s (wind_down s) = Some s'
             /\ eventTask s' = Exited
             /\ (fireTask s' = None \/ fireTask s' = Some Exited)
             /\ doneClosed s' = true /\ triggerDoneClosed s' = true
             /\ fireStarted s' = fireStarted s /\ eventStarted s' = eventStarted s).
Proof.
  eexists. split; [vm_compute; reflexivity |]. split; [reflexivity |].
  apply (recipe_can_be_stopped always true [Fire true; Deliver press_event]).
  vm_compute. reflexivity.
Defined.

(** A timer-only trigger takes events without executing; an events-only
    trigger has no fire listener. *)
Lemma trigger_init_decides_witness :
  (exists s,
     steps (StartConsumingEvents timer_only true)
       [Deliver press_event; Fire true; Deliver press_event] = Some s
     /\ fireStarted s = 1
     /\ ((triggerProcessesEvents timer_only = false ->
          eventStarted s = 0 /\ tstate s = initial timer_only /\ eventTask s <> Executing)
         /\ (fires timer_only = false -> fireStarted s = 0 /\ fireTask s = None)))
  /\ exists s,
       steps (StartConsumingEvents events_only true) [Deliver press_event] = Some s
       /\ eventStarted s = 1
       /\ ((triggerProcessesEvents events_only = false ->
            eventStarted s = 0 /\ tstate s = initial events_only
            /\ eventTask s <> Executing)
           /\ (fires events_only = false -> fireStarted s = 0 /\ fireTask s = None)).
Proof.
  split.
  - eexists. split; [vm_compute; reflexivity |]. split; [reflexivity |].
    apply (trigger_init_decides timer_only true
             [Deliver press_event; Fire true; Deliver press_event]).
    vm_compute. reflexivity.
  - eexists. split; [vm_compute; reflexivity |]. split; [reflexivity |].
    apply (trigger_init_decides events_only true [Deliver press_event]).
    vm_compute. reflexivity.
Defined.

(** Two executions that fail: the same run without errors differs in the
    log count only. *)
Lemma action_errors_are_only_logged_witness :
  exists s1,
    steps (StartConsumingEvents always true)
      [Fire true; FireActionReturns true; Deliver press_event; EventActionReturns true]
    = Some s1
    /\ failures s1 = 2
    /\ exists s2,
         steps (StartConsumingEvents always true)
           (map quiet [Fire true; FireActionReturns true; Deliver press_event;
                       EventActionReturns true]) = Some s2
         /\ same_but_log s1 s2
         /\ failures s2 = failures (StartConsumingEvents always true)
         /\ failures (StartConsumingEvents always true) <= failures s1.
Proof.
  eexists. split; [vm_compute; reflexivity |]. split; [reflexivity |].
  apply (action_errors_are_only_logged always (StartConsumingEvents always true) _
           [Fire true; FireActionReturns true; Deliver press_event; EventActionReturns true]).
  vm_compute. reflexivity.
Defined.


(** The same address under hub h and without a hub: found or not by the
    order. *)
Lemma IsDupeDevice_depends_on_order_witness :
  IsDupeDevice [mkDevice "b" "10.0.0.2" (Some "h"); mkDevice "a" "10.0.0.2" None]
    (mkDevice "c" "10.0.0.2" (Some "h"))
  = (Some (mkDevice "b" "10.0.0.2" (Some "h")), true)
  /\ snd (IsDupeDevice [mkDevice "a" "10.0.0.2" None; mkDevice "b" "10.0.0.2" (Some "h")]
            (mkDevice "c" "10.0.0.2" (Some "h"))) = false.
Proof.
  apply (IsDupeDevice_depends_on_order (mkDevice "c" "10.0.0.2" (Some "h"))
           (mkDevice "b" "10.0.0.2" (Some "h")) (mkDevice "a" "10.0.0.2" None));
    try reflexivity. discriminate.
Defined.

End CoverageExamples.
